(** * programManager: program cache, closure expansion, emit, formatting
      and diagnostics of [src/lib/main/lang/programManager.ts]

    The development is a shallow embedding of the TypeScript module.  Mutable
    JavaScript state (the disk, the console, the process-wide [programs]
    object, the [Program] instances) is threaded explicitly through a small
    state-and-exception monad; the compiler engine, Node's [path] module and
    the sibling modules [utils], [tsconfig] and [languageServiceHost] are
    interfaces whose operations are fields of type classes. *)

From Stdlib Require Import ZArith Ascii String List.
From stdpp Require Import base option list gmap strings fin_maps.

Local Open Scope string_scope.
Local Open Scope list_scope.
Local Open Scope Z_scope.

(** ** JavaScript strings

    A string is its sequence of code units, here a Rocq [string]; indices
    are integers, as the compiler's spans and positions are. *)

Module JsString.

(** A relative index as [String.prototype.slice] reads it: a negative
    index counts from the end, and everything is clamped to [0..len]. *)
Definition clampIndex (len i : Z) : Z :=
  if i <? 0 then Z.max (len + i) 0 else Z.min i len.

Definition len (s : string) : Z := Z.of_nat (String.length s).

(** [s.slice(start, end)]; [end = None] is the one-argument call. *)
Definition slice (s : string) (start : Z) (fin : option Z) : string :=
  let from := clampIndex (len s) start in
  let to := match fin with
            | Some e => clampIndex (len s) e
            | None => len s
            end in
  substring (Z.to_nat from) (Z.to_nat (Z.max (to - from) 0)) s.

(** [s.substr(start, length)]. *)
Definition substr (s : string) (start length : Z) : string :=
  let from := clampIndex (len s) start in
  let n := Z.min (Z.max length 0) (len s - from) in
  substring (Z.to_nat from) (Z.to_nat n) s.

End JsString.

(** ** The compiler's text changes *)

Record TextSpan := mkTextSpan { spanStart : Z; spanLength : Z }.

Record TextChange := mkTextChange { span : TextSpan; newText : string }.

(** One step of the loop body of [formatCode]. *)
Definition spliceChange (result : string) (change : TextChange) : string :=
  let head := JsString.slice result 0 (Some (spanStart (span change))) in
  let tail := JsString.slice result
                (spanStart (span change) + spanLength (span change)) None in
  head +:+ newText change +:+ tail.

(** [for (var i = changes.length - 1; i >= 0; i--)]: the counter [n] is
    [i + 1], so the loop stops at [n = 0].  The index stays below
    [changes.length], so [changes[i]] is always there. *)
Fixpoint formatCode_from (changes : list TextChange) (n : nat)
    (result : string) : string :=
  match n with
  | O => result
  | S i =>
      match changes !! i with
      | Some change => formatCode_from changes i (spliceChange result change)
      | None => result
      end
  end.

Definition formatCode (orig : string) (changes : list TextChange) : string :=
  formatCode_from changes (List.length changes) orig.

(** The edits, as the language service hands them out: ordered by
    position and not overlapping.  Each starts at or after [pos], where the
    one before it ended, and the last one ends inside the text. *)
Fixpoint orderedFrom (pos len : Z) (changes : list TextChange) : bool :=
  match changes with
  | [] => pos <=? len
  | change :: changes' =>
      (pos <=? spanStart (span change))
      && (0 <=? spanLength (span change))
      && orderedFrom (spanStart (span change) + spanLength (span change)) len
           changes'
  end.

(** All edits applied at once: the original text is read from [pos] on,
    and each span is replaced by its new text. *)
Fixpoint applyFrom (orig : string) (pos : Z) (changes : list TextChange)
    : string :=
  match changes with
  | [] => JsString.slice orig pos None
  | change :: changes' =>
      JsString.slice orig pos (Some (spanStart (span change)))
      +:+ newText change
      +:+ applyFrom orig
            (spanStart (span change) + spanLength (span change)) changes'
  end.

(** ** Exceptions and state

    A JavaScript call either returns a value or throws; both leave a state
    behind.  [M S A] is the type of computations over a state [S]. *)

Inductive Exn :=
| IOError (path : string)
| TypeError (what : string).

Inductive Res (S A : Type) :=
| Ok (a : A) (s : S)
| Throw (e : Exn) (s : S).
Arguments Ok {S A} a s.
Arguments Throw {S A} e s.

Definition M (S A : Type) : Type := S → Res S A.

#[global] Instance M_ret {S} : MRet (M S) := λ A a s, Ok a s.

#[global] Instance M_bind {S} : MBind (M S) := λ A B f m s,
  match m s with
  | Ok a s' => f a s'
  | Throw e s' => Throw e s'
  end.

Definition throw {S A} (e : Exn) : M S A := λ s, Throw e s.

Definition gets {S A} (f : S → A) : M S A := λ s, Ok (f s) s.

Definition modify {S} (f : S → S) : M S unit := λ s, Ok tt (f s).

(** [Array.prototype.forEach], [filter] and [map] with a callback that has
    effects: the callback runs on the elements in order, and an exception
    leaves the loop. *)
Fixpoint forEach {S A} (f : A → M S unit) (l : list A) : M S unit :=
  match l with
  | [] => mret tt
  | x :: l' => f x ;; forEach f l'
  end.

Fixpoint filterM {S A} (p : A → M S bool) (l : list A) : M S (list A) :=
  match l with
  | [] => mret []
  | x :: l' =>
      keep ← p x;
      rest ← filterM p l';
      mret (if keep : bool then x :: rest else rest)
  end.

Fixpoint mapM {S A B} (f : A → M S B) (l : list A) : M S (list B) :=
  match l with
  | [] => mret []
  | x :: l' =>
      y ← f x;
      ys ← mapM f l';
      mret (y :: ys)
  end.

(** ** The compiler engine's data ([typescript]) *)

Module FileReference.
Record t := mk { filename : string }.
End FileReference.

Record PreProcessedFileInfo := mkPreProcessedFileInfo {
  referencedFiles : list FileReference.t;
  importedFiles : list FileReference.t
}.

Module SourceFile.
Record t := mk { filename : string }.
End SourceFile.

(** [file] is [None] for a diagnostic without a source file. *)
Module Diagnostic.
Record t := mk {
  file : option SourceFile.t;
  start : Z;
  length : Z;
  messageText : string
}.
End Diagnostic.

Inductive EmitReturnStatus :=
| Succeeded
| AllOutputGenerationSkipped
| JSGeneratedWithSemanticErrors
| DeclarationGenerationSkipped
| EmitErrorsEncountered
| CompilerOptionsErrors.

#[global] Instance EmitReturnStatus_eq_dec : EqDecision EmitReturnStatus.
Proof. solve_decision. Defined.

Module OutputFile.
Record t := mk { name : string; text : string }.
End OutputFile.

Module ts.
Record EmitOutput := mkEmitOutput {
  outputFiles : list OutputFile.t;
  emitOutputStatus : EmitReturnStatus
}.
End ts.

Record LineAndCharacter := mkLineAndCharacter { line : Z; character : Z }.

(** ** The project definition ([tsconfig]) *)

Record TypeScriptProject := mkProject { files : list string }.

Record TypeScriptProjectFileDetails := mkDetails {
  projectFileDirectory : string;
  project : TypeScriptProject
}.

(** ** The language service host *)

(** Modelled from the spec: the module [languageServiceHost] is not under
    src/.  The spec describes the host as "incremental source hosting keyed
    by file path", "a host object presenting the project's files as
    compiler inputs": a finite map from file path to script content. *)
Record LanguageServiceHost := mkHost { fileNameToScript : gmap string string }.

(** Modelled from the spec: [hasScript] of the absent host module; a file
    is known when the host holds a script for its path. *)
Definition hasScript (h : LanguageServiceHost) (fileName : string) : bool :=
  bool_decide (is_Some (fileNameToScript h !! fileName)).

(** Modelled from the spec: [addScript] of the absent host module; the file
    enters the host with the content it is given. *)
Definition addScript (h : LanguageServiceHost) (fileName content : string)
    : LanguageServiceHost :=
  mkHost (<[fileName := content]> (fileNameToScript h)).

(** Modelled from the spec: [getScriptContent] of the absent host module;
    [None] stands for the missing script (JavaScript's [null]). *)
Definition getScriptContent (h : LanguageServiceHost) (fileName : string)
    : option string :=
  fileNameToScript h !! fileName.

Record Position := mkPosition { pos_line : Z; pos_ch : Z }.

(** ** Interfaces of the modules the program manager calls *)

Abbreviation Disk := (gmap string string).

(** Node's [path] and [fs]. [canWrite] says whether [fs.writeFileSync]
    succeeds on a path (its directory exists and is writable). *)
Class Node := {
  dirname : string → string;
  basename : string → string;
  extname : string → string;
  canWrite : Disk → string → bool
}.

(** [utils.pathResolve] and [utils.pathIsRelative]. *)
Class Utils := {
  pathResolve : string → string → string;
  pathIsRelative : string → bool
}.

(** The compiler: [ts.preProcessFile] reads a source text (given [null]
    instead it throws, see [referencedByFile]), and the language service
    answers from the scripts its host presents. *)
Class TypeScript := {
  preProcessFile : string → bool → PreProcessedFileInfo;
  getEmitOutput : LanguageServiceHost → string → ts.EmitOutput;
  getCompilerOptionsDiagnostics : LanguageServiceHost → list Diagnostic.t;
  getSyntacticDiagnostics : LanguageServiceHost → string → list Diagnostic.t;
  getSemanticDiagnostics : LanguageServiceHost → string → list Diagnostic.t;
  getLineAndCharacterFromPosition : SourceFile.t → Z → LineAndCharacter
}.

(** What is left of the host: its constructor and its position table. *)
Class HostModule := {
  newLanguageServiceHost :
    Disk → TypeScriptProjectFileDetails → LanguageServiceHost;
  getPositionFromIndex : LanguageServiceHost → string → Z → Position
}.

(** [tsconfig.getProjectSync] throws when no project file is found ([None]);
    [tsconfig.createProjectRootSync] may write the project file it makes. *)
Class TsConfig := {
  getProjectSync : Disk → string → option TypeScriptProjectFileDetails;
  createProjectRootSync :
    Disk → string → option (TypeScriptProjectFileDetails * Disk)
}.

(** Modelled from the spec: [utils.selectMany], whose module is not under
    src/; the scan collects, per file, the list of resolved paths and the
    spec treats the outcome as one list of paths, so the lists are
    flattened in order. *)
Definition selectMany {A} (arr : list (list A)) : list A := concat arr.

(** ** Programs and the process state *)

Record Program := mkProgram {
  instanceId : nat;
  projectFile : TypeScriptProjectFileDetails;
  languageServiceHost : LanguageServiceHost
}.

Inductive Request :=
| ReqEmitOutput (filePath : string)
| ReqCompilerOptionsDiagnostics
| ReqSyntacticDiagnostics (filePath : string)
| ReqSemanticDiagnostics (filePath : string).

Inductive LogEntry :=
| LogText (s : string)
| LogDiagnostics (ds : list Diagnostic.t)
| LogDiagnosticLine (fileName : string) (l c : Z) (message : string).

(** [programs] is the module-level cache; [instances] counts the [Program]
    objects allocated so far and gives each its identity; [requests] is the
    sequence of calls made to language services. *)
Record World := mkWorld {
  disk : Disk;
  console : list LogEntry;
  requests : list Request;
  programs : gmap string Program;
  instances : nat
}.

Record EmitOutput := mkEmitOutput {
  outputFiles : list string;
  success : bool
}.

Record TSError := mkTSError {
  filePath : string;
  startPos : Position;
  endPos : Position;
  message : string;
  preview : string
}.

(** ** The program manager *)

Section ProgramManager.

Context {N : Node} {U : Utils} {T : TypeScript} {L : HostModule}
  {C : TsConfig}.

(** [fs.readFileSync(file).toString()]: throws when the file is absent. *)
Definition readFileSync {S} (d : Disk) (file : string) : M S string :=
  match d !! file with
  | Some content => mret content
  | None => throw (IOError file)
  end.

Definition setDisk (d : Disk) (w : World) : World :=
  mkWorld d (console w) (requests w) (programs w) (instances w).

(** [fs.writeFileSync(name, text, "utf8")]. *)
Definition writeFileSync (fileName content : string) : M World unit :=
  λ w,
    if canWrite (disk w) fileName
    then Ok tt (setDisk (<[fileName := content]> (disk w)) w)
    else Throw (IOError fileName) w.

Definition consoleLog (entry : LogEntry) : M World unit :=
  modify (λ w, mkWorld (disk w) (console w ++ [entry]) (requests w)
                 (programs w) (instances w)).

(** A call to a language service leaves its request in the trace. *)
Definition request {A} (r : Request) (answer : A) : M World A :=
  λ w, Ok answer (mkWorld (disk w) (console w) (requests w ++ [r])
                    (programs w) (instances w)).

(** *** Closure expansion *)

(** [addScript(file, content)] followed by [files.push(file)]. *)
Definition withScript (this : Program) (file content : string) : Program :=
  mkProgram (instanceId this)
    (mkDetails (projectFileDirectory (projectFile this))
       (mkProject (files (project (projectFile this)) ++ [file])))
    (addScript (languageServiceHost this) file content).

(** The closure [willNeedMoreAnalysis] of
    [increaseProjectForReferenceAndImports]; the state is [this]. *)
Definition willNeedMoreAnalysis (d : Disk) (file : string) : M Program bool :=
  known ← gets (λ this, hasScript (languageServiceHost this) file);
  if negb known
  then content ← readFileSync d file;
       modify (λ this, withScript this file content);;
       mret true
  else mret false.

(** The paths a file with the given text refers to: its references,
    then its relative imports with ['.ts'] appended (the body of the
    [forEach] callback, once the text is preprocessed). *)
Definition referencedBy (content : string) (file : string) : list string :=
  let preProcessedFileInfo := preProcessFile content true in
  let dir := dirname file in
  map (λ fileReference, pathResolve dir (FileReference.filename fileReference))
      (referencedFiles preProcessedFileInfo)
  ++ map (λ fileReference,
            pathResolve dir (FileReference.filename fileReference +:+ ".ts"))
       (List.filter
          (λ fileReference, pathIsRelative (FileReference.filename fileReference))
          (importedFiles preProcessedFileInfo)).

(** The [forEach] callback: for a file without a script
    [getScriptContent] gives [null], on which [ts.preProcessFile] throws a
    [TypeError]. *)
Definition referencedByFile (file : string) : M Program (list string) :=
  content ← gets (λ this, getScriptContent (languageServiceHost this) file);
  match content with
  | Some text => mret (referencedBy text file)
  | None => throw (TypeError "preProcessFile")
  end.

Definition getReferencedOrImportedFiles (fileList : list string)
    : M Program (list string) :=
  referenced ← mapM referencedByFile fileList;
  mret (selectMany referenced).

(** One evaluation of
    [this.getReferencedOrImportedFiles(this.projectFile.project.files)
       .filter(willNeedMoreAnalysis)]. *)
Definition scanForMore (d : Disk) : M Program (list string) :=
  fileList ← gets (λ this, files (project (projectFile this)));
  paths ← getReferencedOrImportedFiles fileList;
  filterM (willNeedMoreAnalysis d) paths.

(** [more = scan; while (more.length) more = scan].  The loop has no bound
    of its own, so the model counts iterations: [None] means that [fuel]
    scans were not enough. *)
Fixpoint expansionLoop (d : Disk) (fuel : nat) (this : Program)
    : option (Res Program unit) :=
  match fuel with
  | O => None
  | S fuel' =>
      match scanForMore d this with
      | Ok [] this' => Some (Ok tt this')
      | Ok (_ :: _) this' => expansionLoop d fuel' this'
      | Throw e this' => Some (Throw e this')
      end
  end.

(** Files on disk that the host does not know yet: each scan that finds
    more files takes at least one of them. *)
Definition unknownFiles (d : Disk) (this : Program) : gset string :=
  dom d ∖ dom (fileNameToScript (languageServiceHost this)).

Definition expansionBound (d : Disk) (this : Program) : nat :=
  S (size (unknownFiles d this)).

(** [expansionBound] scans always suffice ([expansionLoop_terminates]
    below), so the default is never taken. *)
Definition increaseProjectForReferenceAndImports (d : Disk) : M Program unit :=
  λ this,
    default (Ok tt this) (expansionLoop d (expansionBound d this) this).

(** *** Emit *)

Definition logDiagnostic (diagnostic : Diagnostic.t) : M World unit :=
  match Diagnostic.file diagnostic with
  | None => mret tt
  | Some sourceFile =>
      let lineChar :=
        getLineAndCharacterFromPosition sourceFile (Diagnostic.start diagnostic) in
      consoleLog (LogDiagnosticLine (SourceFile.filename sourceFile)
                    (line lineChar) (character lineChar)
                    (Diagnostic.messageText diagnostic))
  end.

Definition emitFile (this : Program) (path : string) : M World EmitOutput :=
  let services := languageServiceHost this in
  output ← request (ReqEmitOutput path) (getEmitOutput services path);
  let ok := bool_decide (ts.emitOutputStatus output = Succeeded) in
  (if ok then mret tt
   else
     consoleLog (LogText ("FAILURE " +:+ path +:+ " emit"));;
     options ← request ReqCompilerOptionsDiagnostics
                 (getCompilerOptionsDiagnostics services);
     syntactic ← request (ReqSyntacticDiagnostics path)
                   (getSyntacticDiagnostics services path);
     semantic ← request (ReqSemanticDiagnostics path)
                  (getSemanticDiagnostics services path);
     let allDiagnostics := (options ++ syntactic) ++ semantic in
     consoleLog (LogDiagnostics allDiagnostics);;
     forEach logDiagnostic allDiagnostics);;
  forEach (λ o, writeFileSync (OutputFile.name o) (OutputFile.text o))
    (ts.outputFiles output);;
  let names := map OutputFile.name (ts.outputFiles output) in
  let names := if String.eqb (extname path) ".d.ts"
               then names ++ [path] else names in
  mret (mkEmitOutput names ok).

(** *** Construction and the cache *)

(** [init]: every file of the project is emitted once. *)
Definition init (this : Program) : M World unit :=
  forEach (λ fileName, emitFile this fileName;; mret tt)
    (files (project (projectFile this))).

(** [new Program(projectFile)].  The object gets the next identity; the
    expansion works on the object under construction and reads the disk;
    an exception abandons the object. *)
Definition newProgram (details : TypeScriptProjectFileDetails)
    : M World Program :=
  λ w,
    let d := disk w in
    let this := mkProgram (instances w) details
                  (newLanguageServiceHost d details) in
    let w := mkWorld d (console w) (requests w) (programs w)
               (S (instances w)) in
    match increaseProjectForReferenceAndImports d this with
    | Throw e _ => Throw e w
    | Ok _ this => (init this;; mret this) w
    end.

Definition getOrCreateProject (path : string)
    : M World TypeScriptProjectFileDetails :=
  λ w,
    match getProjectSync (disk w) path with
    | Some details => Ok details w
    | None =>
        match createProjectRootSync (disk w) path with
        | Some (details, d) => Ok details (setDisk d w)
        | None => Throw (IOError path) w
        end
    end.

Definition setProgram (dir : string) (p : Program) : M World unit :=
  modify (λ w, mkWorld (disk w) (console w) (requests w)
                 (<[dir := p]> (programs w)) (instances w)).

(** A [Program] object is truthy, so [if (programs[dir])] tests the
    presence of the entry.  Project directories are directory paths, not
    names of members of [Object.prototype]. *)
Definition getOrCreateProgram (path : string) : M World Program :=
  details ← getOrCreateProject path;
  cached ← gets (λ w, programs w !! projectFileDirectory details);
  match cached with
  | Some program => mret program
  | None =>
      program ← newProgram details;
      setProgram (projectFileDirectory details) program;;
      mret program
  end.

(** *** Diagnostics *)

(** The callback of [diagnostics.map] in [getErrorsForFile]:
    [diagnostic.file.filename] and [getScriptContent(filePath).substr]
    throw on a missing file or script. *)
Definition toTSError (program : Program) (path : string)
    (diagnostic : Diagnostic.t) : M World TSError :=
  match Diagnostic.file diagnostic with
  | None => throw (TypeError "diagnostic.file")
  | Some sourceFile =>
      let host := languageServiceHost program in
      match getScriptContent host path with
      | None => throw (TypeError "getScriptContent")
      | Some content =>
          mret (mkTSError
                  (SourceFile.filename sourceFile)
                  (getPositionFromIndex host path (Diagnostic.start diagnostic))
                  (getPositionFromIndex host path
                     (Diagnostic.length diagnostic + Diagnostic.start diagnostic))
                  (Diagnostic.messageText diagnostic)
                  (JsString.substr content (Diagnostic.start diagnostic)
                     (Diagnostic.length diagnostic)))
      end
  end.

Definition getErrorsForFile (path : string) : M World (list TSError) :=
  program ← getOrCreateProgram path;
  let host := languageServiceHost program in
  diagnostics ← request (ReqSyntacticDiagnostics path)
                  (getSyntacticDiagnostics host path);
  diagnostics ← (if bool_decide (List.length diagnostics = 0%nat)
                 then request (ReqSemanticDiagnostics path)
                        (getSemanticDiagnostics host path)
                 else mret diagnostics);
  mapM (toTSError program path) diagnostics.

Definition getErrorsForFileFiltered (path : string) : M World (list TSError) :=
  let fileName := basename path in
  errors ← getErrorsForFile path;
  mret (List.filter (λ error, String.eqb (basename (filePath error)) fileName)
          errors).

End ProgramManager.

(** ** The reference/import relation

    The specification side of the closure, stated on what the preprocessor
    finds in a text and independently of the scan: [declares] is one
    reference or relative import, [refersTo] is the edge relation of the
    file graph, read off the text each file has once it is loaded (the
    script the host already holds, or else the file on disk), and
    [reachable] is its reflexive-transitive closure from the files of the
    project. *)

Section Reachability.

Context {N : Node} {U : Utils} {T : TypeScript}.

Definition sourceText (d : Disk) (host : LanguageServiceHost)
    (f : string) : option string :=
  (fileNameToScript host ∪ d) !! f.

(** The text of [f] declares [g]: by a reference, resolved against the
    directory of [f], or by a relative import, which names a module and is
    resolved with the source extension ['.ts'] appended. *)
Inductive declares (content : string) (f g : string) : Prop :=
| declares_reference (r : FileReference.t) :
    r ∈ referencedFiles (preProcessFile content true) →
    g = pathResolve (dirname f) (FileReference.filename r) →
    declares content f g
| declares_import (r : FileReference.t) :
    r ∈ importedFiles (preProcessFile content true) →
    pathIsRelative (FileReference.filename r) = true →
    g = pathResolve (dirname f) (FileReference.filename r +:+ ".ts") →
    declares content f g.

Definition refersTo (d : Disk) (host : LanguageServiceHost)
    (f g : string) : Prop :=
  ∃ content, sourceText d host f = Some content ∧ declares content f g.

Definition reachable (d : Disk) (this : Program) (g : string) : Prop :=
  ∃ f, f ∈ files (project (projectFile this))
       ∧ rtc (refersTo d (languageServiceHost this)) f g.

(** The edges to files of which the host has no script yet, and what can
    be reached along them. *)
Definition refersToNew (d : Disk) (host : LanguageServiceHost)
    (f g : string) : Prop :=
  refersTo d host f g ∧ hasScript host g = false.

Definition reachableNew (d : Disk) (this : Program) (g : string) : Prop :=
  ∃ f, f ∈ files (project (projectFile this))
       ∧ rtc (refersToNew d (languageServiceHost this)) f g.

End Reachability.

(** The claim about extensions, as the spec words it: an import is given
    the source extension only when it has none. *)

Section SpecSuffix.

Context {N : Node} {U : Utils} {T : TypeScript}.

Definition withSourceExtension (importName : string) : string :=
  if String.eqb (extname importName) "" then importName +:+ ".ts"
  else importName.

Definition referencedBy_spec (content : string) (file : string)
    : list string :=
  let preProcessedFileInfo := preProcessFile content true in
  let dir := dirname file in
  map (λ fileReference, pathResolve dir (FileReference.filename fileReference))
      (referencedFiles preProcessedFileInfo)
  ++ map (λ fileReference,
            pathResolve dir
              (withSourceExtension (FileReference.filename fileReference)))
       (List.filter
          (λ fileReference, pathIsRelative (FileReference.filename fileReference))
          (importedFiles preProcessedFileInfo)).

End SpecSuffix.

(** ** Reading results *)

Definition stateOf {S A} (r : Res S A) : S :=
  match r with
  | Ok _ s => s
  | Throw _ s => s
  end.

(** The disk once a list of output files has been written, in order. *)
Definition writeOutputs (outs : list OutputFile.t) (d : Disk) : Disk :=
  fold_left (λ d o, <[OutputFile.name o := OutputFile.text o]> d) outs d.

(** Every write of the list succeeds, each on the disk the writes before
    it have left. *)
Fixpoint writable {N : Node} (d : Disk) (outs : list OutputFile.t) : bool :=
  match outs with
  | [] => true
  | o :: outs' =>
      canWrite d (OutputFile.name o)
      && writable (<[OutputFile.name o := OutputFile.text o]> d) outs'
  end.

(** The cache is well formed: a program is cached under its own project
    directory, its identity has been allocated, and two cached programs
    with one identity are one entry. *)
Definition cacheOk (w : World) : Prop :=
  (∀ dir p, programs w !! dir = Some p →
            projectFileDirectory (projectFile p) = dir
            ∧ (instanceId p < instances w)%nat)
  ∧ (∀ dir1 dir2 p1 p2,
       programs w !! dir1 = Some p1 → programs w !! dir2 = Some p2 →
       instanceId p1 = instanceId p2 → dir1 = dir2).

(** ** Invariants of the expansion *)

Section ExpansionInvariants.

Context {N : Node} {U : Utils} {T : TypeScript}.

Abbreviation hostMap this := (fileNameToScript (languageServiceHost this)).
Abbreviation fileList this := (files (project (projectFile this))).

(** What one [filter(willNeedMoreAnalysis)] pass does when it returns. *)
Record scanned (d : Disk) (l : list string) (this : Program)
    (more : list string) (this' : Program) : Prop := {
  scanned_files : fileList this' = fileList this ++ more;
  scanned_dir :
    projectFileDirectory (projectFile this')
    = projectFileDirectory (projectFile this);
  scanned_id : instanceId this' = instanceId this;
  scanned_grow : hostMap this ⊆ hostMap this';
  scanned_from_disk : hostMap this' ⊆ hostMap this ∪ d;
  scanned_dom : dom (hostMap this') = dom (hostMap this) ∪ list_to_set more;
  scanned_all : ∀ f, f ∈ l → f ∈ dom (hostMap this');
  scanned_more : ∀ f, f ∈ more → f ∈ l ∧ f ∉ dom (hostMap this) ∧ f ∈ dom d;
  scanned_nodup : NoDup more;
  scanned_nil : more = [] → this' = this
}.

(** The state of an expansion that started from [this0]. *)
Record expanding (d : Disk) (this0 this : Program) : Prop := {
  expanding_grow : hostMap this0 ⊆ hostMap this;
  expanding_from_disk : hostMap this ⊆ hostMap this0 ∪ d;
  expanding_dom :
    dom (hostMap this) = dom (hostMap this0) ∪ list_to_set (fileList this);
  expanding_initial : ∀ f, f ∈ fileList this0 → f ∈ fileList this;
  expanding_reachable : ∀ f, f ∈ fileList this → reachableNew d this0 f
}.

End ExpansionInvariants.

(** Two worlds with the same cache and the same instance counter. *)
Definition sameCache (w w' : World) : Prop :=
  programs w' = programs w ∧ instances w' = instances w.

(** ** Diagnostics, specification side *)

Section Reported.

Context {T : TypeScript} {L : HostModule}.

(** The diagnostics [getErrorsForFile] reports: the syntactic ones, or the
    semantic ones when there is no syntactic one. *)
Definition tieredDiagnostics (host : LanguageServiceHost) (path : string)
    : list Diagnostic.t :=
  match getSyntacticDiagnostics host path with
  | [] => getSemanticDiagnostics host path
  | syntactic => syntactic
  end.

(** The error record of a diagnostic in an answer about [path]: the file
    name is the diagnostic's own, positions and preview are taken in the
    script of [path]. *)
Definition reported (program : Program) (path : string)
    (diagnostic : Diagnostic.t) (error : TSError) : Prop :=
  let host := languageServiceHost program in
  ∃ sourceFile content,
    Diagnostic.file diagnostic = Some sourceFile
    ∧ getScriptContent host path = Some content
    ∧ filePath error = SourceFile.filename sourceFile
    ∧ startPos error
      = getPositionFromIndex host path (Diagnostic.start diagnostic)
    ∧ endPos error
      = getPositionFromIndex host path
          (Diagnostic.length diagnostic + Diagnostic.start diagnostic)
    ∧ message error = Diagnostic.messageText diagnostic
    ∧ preview error
      = JsString.substr content (Diagnostic.start diagnostic)
          (Diagnostic.length diagnostic).

End Reported.

(** The world after a sequence of requests to a language service. *)
Definition withRequests (reqs : list Request) (w : World) : World :=
  mkWorld (disk w) (console w) (requests w ++ reqs) (programs w) (instances w).

(** ** A small environment for the examples

    POSIX-style paths, a preprocessor for a miniature directive syntax
    (statements separated by [;], [ref p] a reference, [import m] an
    import), and an engine that answers from tables. *)

Module Demo.

Fixpoint splitLastSlash (s : string) : option (string * string) :=
  match s with
  | EmptyString => None
  | String c s' =>
      match splitLastSlash s' with
      | Some (dir, base) => Some (String c dir, base)
      | None => if Ascii.eqb c "/" then Some (EmptyString, s') else None
      end
  end.

Definition posixDirname (s : string) : string :=
  match splitLastSlash s with
  | Some (EmptyString, _) => "/"
  | Some (dir, _) => dir
  | None => "."
  end.

Definition posixBasename (s : string) : string :=
  match splitLastSlash s with
  | Some (_, base) => base
  | None => s
  end.

Fixpoint lastDot (s : string) : option string :=
  match s with
  | EmptyString => None
  | String c s' =>
      match lastDot s' with
      | Some ext => Some ext
      | None => if Ascii.eqb c "." then Some s else None
      end
  end.

Definition posixExtname (s : string) : string :=
  match posixBasename s with
  | String "." _ => ""
  | base => default "" (lastDot base)
  end.

Definition dropPrefix (p s : string) : option string :=
  if String.prefix p s
  then Some (substring (String.length p) (String.length s - String.length p) s)
  else None.

#[export] Instance node : Node := {|
  dirname := posixDirname;
  basename := posixBasename;
  extname := posixExtname;
  canWrite := λ _ fileName, negb (String.prefix "/readonly/" fileName)
|}.

#[export] Instance utils : Utils := {|
  pathResolve := λ dir fileName,
    dir +:+ "/" +:+ default fileName (dropPrefix "./" fileName);
  pathIsRelative := λ fileName, String.prefix "." fileName
|}.

Fixpoint splitOn (sep : ascii) (s : string) : list string :=
  match s with
  | EmptyString => [EmptyString]
  | String c s' =>
      if Ascii.eqb c sep then EmptyString :: splitOn sep s'
      else match splitOn sep s' with
           | seg :: segs => String c seg :: segs
           | [] => [String c EmptyString]
           end
  end.

Definition directives (content : string) : PreProcessedFileInfo :=
  let statements := splitOn ";" content in
  mkPreProcessedFileInfo
    (omap (λ s, FileReference.mk <$> dropPrefix "ref " s) statements)
    (omap (λ s, FileReference.mk <$> dropPrefix "import " s) statements).

(** An engine whose diagnostics and outputs are given by tables. *)
Definition engine (syntactic semantic : string → list Diagnostic.t)
    (emit : string → ts.EmitOutput) : TypeScript := {|
  preProcessFile := λ content _, directives content;
  getEmitOutput := λ _ path, emit path;
  getCompilerOptionsDiagnostics := λ _, [];
  getSyntacticDiagnostics := λ _ path, syntactic path;
  getSemanticDiagnostics := λ _ path, semantic path;
  getLineAndCharacterFromPosition := λ _ pos, mkLineAndCharacter 0 pos
|}.

(** The host starts with the project's files as they are on disk. *)
#[export] Instance hostModule : HostModule := {|
  newLanguageServiceHost := λ d details,
    mkHost (list_to_map
              (omap (λ f, pair f <$> d !! f) (files (project details))));
  getPositionFromIndex := λ _ _ index, mkPosition 0 index
|}.

(** A project file is found for the paths under [/p/]; its only entry is
    the file asked for.  Other paths get a project of their own. *)
#[export] Instance tsConfig : TsConfig := {|
  getProjectSync := λ _ path,
    if String.prefix "/p/" path
    then Some (mkDetails "/p" (mkProject [path])) else None;
  createProjectRootSync := λ d path,
    Some (mkDetails (posixDirname path) (mkProject [path]), d)
|}.

Definition noDiagnostics (path : string) : list Diagnostic.t := [].

Definition emitJs (status : EmitReturnStatus) (path : string) : ts.EmitOutput :=
  ts.mkEmitOutput [OutputFile.mk (path +:+ ".js") "js"] status.

Definition quiet : TypeScript := engine noDiagnostics noDiagnostics (emitJs Succeeded).

Definition emptyWorld (d : Disk) : World := mkWorld d [] [] ∅ 0.

(** Two files that refer to each other, and a third one. *)
Definition cyclicDisk : Disk :=
  list_to_map [("/p/a.ts", "ref b.ts;import ./c;import fs");
               ("/p/b.ts", "ref a.ts");
               ("/p/c.ts", "var x")].

Definition cyclicProgram : Program :=
  mkProgram 0 (mkDetails "/p" (mkProject ["/p/a.ts"]))
    (newLanguageServiceHost cyclicDisk (mkDetails "/p" (mkProject ["/p/a.ts"]))).

(** A diagnostic at the first four characters, attributed to [path]. *)
Definition errorIn (path : string) (text : string) : Diagnostic.t :=
  Diagnostic.mk (Some (SourceFile.mk path)) 0 4 text.

(** [b] has a syntax error; the engine reports it, attributed to [b], when
    it is asked about the importing file [a] as well. *)
Definition importerEngine (a b : string) : TypeScript :=
  engine
    (λ path, if String.eqb path b then [errorIn b "';' expected."] else [])
    (λ path, if String.eqb path a then [errorIn b "';' expected."] else [])
    (emitJs Succeeded).

Definition importerDisk (a b importName : string) : Disk :=
  list_to_map [(a, "import " +:+ importName); (b, "oops")].

(** Every file has a syntactic and a semantic diagnostic. *)
Definition noisy : TypeScript :=
  engine (λ path, [errorIn path "';' expected."])
    (λ path, [errorIn path "Type mismatch."]) (emitJs Succeeded).

(** A failed emit with two outputs, the second on a read-only path. *)
Definition emitTwo (path : string) : ts.EmitOutput :=
  ts.mkEmitOutput
    [OutputFile.mk (path +:+ ".js") "js";
     OutputFile.mk ("/readonly/" +:+ posixBasename path +:+ ".map") "map"]
    EmitErrorsEncountered.

Definition failing : TypeScript := engine noDiagnostics noDiagnostics emitTwo.

(** A program whose host holds, besides the file of the project, a
    library file that is not in the file list; [a.ts] refers to it. *)
Definition libraryDisk : Disk :=
  list_to_map [("/p/a.ts", "ref lib.d.ts"); ("/p/lib.d.ts", "var y")].

Definition libraryProgram : Program :=
  mkProgram 0 (mkDetails "/p" (mkProject ["/p/a.ts"]))
    (mkHost (list_to_map [("/p/a.ts", "ref lib.d.ts");
                          ("/p/lib.d.ts", "var y")])).

(** Every file has a syntactic and a semantic diagnostic, and every emit
    fails. *)
Definition noisyFailing : TypeScript :=
  engine (λ path, [errorIn path "';' expected."])
    (λ path, [errorIn path "Type mismatch."]) (emitJs EmitErrorsEncountered).

End Demo.

(** ** Formatting documents *)

(** The change in length the edits make: each puts its new text in the
    place of its span. *)
Definition lengthDelta (changes : list TextChange) : Z :=
  fold_right
    (λ change acc,
       JsString.len (newText change) - spanLength (span change) + acc)
    0 changes.

(** The edit puts back the text it replaces. *)
Definition keepsText (orig : string) (change : TextChange) : Prop :=
  newText change
  = JsString.slice orig (spanStart (span change))
      (Some (spanStart (span change) + spanLength (span change))).

Record FormatCodeOptions := mkFormatCodeOptions {
  IndentSize : Z;
  TabSize : Z;
  NewLineCharacter : string;
  ConvertTabsToSpaces : bool;
  InsertSpaceAfterCommaDelimiter : bool;
  InsertSpaceAfterSemicolonInForStatements : bool;
  InsertSpaceBeforeAndAfterBinaryOperators : bool;
  InsertSpaceAfterKeywordsInControlFlowStatements : bool;
  InsertSpaceAfterFunctionKeywordForAnonymousFunctions : bool;
  InsertSpaceAfterOpeningAndBeforeClosingNonemptyParenthesis : bool;
  PlaceOpenBraceOnNewLineForFunctions : bool;
  PlaceOpenBraceOnNewLineForControlBlocks : bool
}.

(** What [console.log] is given when a document is formatted: edit lists
    and texts ([None] is [null]). *)
Inductive LogArg :=
| ArgChanges (changes : list TextChange)
| ArgText (content : option string).

(** The formatting services of the language service, Node's [os.EOL], and
    the line [console.log] prints for its arguments. *)
Class Formatting := {
  EOL : string;
  getFormattingEditsForDocument :
    LanguageServiceHost → string → FormatCodeOptions → list TextChange;
  getFormattingEditsForRange :
    LanguageServiceHost → string → Z → Z → FormatCodeOptions
    → list TextChange;
  inspectArgs : list LogArg → string
}.

Section FormatDocument.

Context {N : Node} {T : TypeScript} {F : Formatting}.

Definition defaultFormatCodeOptions : FormatCodeOptions := {|
  IndentSize := 4;
  TabSize := 4;
  NewLineCharacter := EOL;
  ConvertTabsToSpaces := true;
  InsertSpaceAfterCommaDelimiter := true;
  InsertSpaceAfterSemicolonInForStatements := true;
  InsertSpaceBeforeAndAfterBinaryOperators := true;
  InsertSpaceAfterKeywordsInControlFlowStatements := true;
  InsertSpaceAfterFunctionKeywordForAnonymousFunctions := false;
  InsertSpaceAfterOpeningAndBeforeClosingNonemptyParenthesis := false;
  PlaceOpenBraceOnNewLineForFunctions := false;
  PlaceOpenBraceOnNewLineForControlBlocks := false
|}.

(** [this.formatCode(content, textChanges)] where [content] may be
    [null]: without edits the loop does not run and [null] comes back;
    with an edit, [result.slice] throws on [null]. *)
Definition formatCodeOf (content : option string)
    (changes : list TextChange) : M World (option string) :=
  match content, changes with
  | Some orig, _ => mret (Some (formatCode orig changes))
  | None, [] => mret None
  | None, _ :: _ => throw (TypeError "result.slice")
  end.

(** The trace [requests] keeps the emit and diagnostics requests; the
    requests for formatting edits are not entered in it. *)
Definition formatDocument (this : Program) (path : string)
    : M World (option string) :=
  let host := languageServiceHost this in
  let textChanges :=
    getFormattingEditsForDocument host path defaultFormatCodeOptions in
  formatted ← formatCodeOf (getScriptContent host path) textChanges;
  consoleLog (LogText (inspectArgs
                         [ArgChanges textChanges;
                          ArgText (getScriptContent host path);
                          ArgText formatted]));;
  mret formatted.

Definition formatDocumentRange (this : Program) (path : string)
    (first last : Z) : M World (option string) :=
  let host := languageServiceHost this in
  let textChanges :=
    getFormattingEditsForRange host path first last defaultFormatCodeOptions in
  formatted ← formatCodeOf (getScriptContent host path) textChanges;
  consoleLog (LogText (inspectArgs [ArgChanges textChanges; ArgText formatted]));;
  mret formatted.

End FormatDocument.

(** ** Reading the trace and the console *)

(** The files for which the emit output was requested, in order. *)
Definition emitRequests (rs : list Request) : list string :=
  omap (λ r, match r with
             | ReqEmitOutput path => Some path
             | _ => None
             end) rs.

(** The console lines of the diagnostics that have a source file. *)
Definition diagnosticLines {T : TypeScript} (ds : list Diagnostic.t)
    : list LogEntry :=
  omap (λ dg,
          sourceFile ← Diagnostic.file dg;
          let lineChar :=
            getLineAndCharacterFromPosition sourceFile (Diagnostic.start dg) in
          Some (LogDiagnosticLine (SourceFile.filename sourceFile)
                  (line lineChar) (character lineChar)
                  (Diagnostic.messageText dg))) ds.

(** ** More of the environment for the examples *)

Module Demo2.

Import Demo.

(** A formatter that puts a semicolon at offset 5 of every document, and,
    for a range, only when the range contains that offset. *)
#[export] Instance formatting : Formatting := {|
  EOL := "
";
  getFormattingEditsForDocument := λ _ _ _,
    [mkTextChange (mkTextSpan 5 0) ";"];
  getFormattingEditsForRange := λ _ _ first last _,
    if (first <=? 5) && (5 <=? last)
    then [mkTextChange (mkTextSpan 5 0) ";"] else [];
  inspectArgs := λ args, "format"
|}.

(** The program of [c.ts] alone. *)
Definition singleProgram : Program :=
  mkProgram 0 (mkDetails "/p" (mkProject ["/p/c.ts"]))
    (mkHost {["/p/c.ts" := "var x"]}).

Definition singleDisk : Disk := {["/p/c.ts" := "var x"]}.

(** [a.ts] refers to a file that is nowhere. *)
Definition danglingDisk : Disk :=
  list_to_map [("/p/a.ts", "ref missing.ts")].

Definition danglingProgram : Program :=
  mkProgram 0 (mkDetails "/p" (mkProject ["/p/a.ts"]))
    (mkHost {["/p/a.ts" := "ref missing.ts"]}).

(** A diagnostic without a source file, as the engine gives for its
    library stub. *)
Definition stubDiagnostic : Diagnostic.t :=
  Diagnostic.mk None 0 1 "stub".

(** An engine whose emits fail and whose semantic diagnostics mix one of
    the file with one that has no file. *)
Definition stubEngine : TypeScript :=
  engine noDiagnostics
    (λ path, [stubDiagnostic; errorIn path "Type mismatch."])
    (emitJs EmitErrorsEncountered).

End Demo2.

(** * Properties *)

(** ** Formatting *)

Lemma formatCode_from_take (changes : list TextChange) (n : nat) (r : string) :
  (n ≤ List.length changes)%nat →
  formatCode_from changes n r
  = fold_right (λ change result, spliceChange result change) r (take n changes).
Proof.
  revert r. induction n as [|i IH]; intros r Hn; [by rewrite take_0|].
  simpl formatCode_from.
  destruct (lookup_lt_is_Some_2 changes i ltac:(lia)) as [change Hc].
  rewrite Hc, IH by lia.
  rewrite (take_S_r _ _ _ Hc), foldr_app. reflexivity.
Qed.

(** Substrings of Rocq strings, as far as [slice] needs them. *)

Lemma length_append (x y : string) :
  String.length (x +:+ y) = (String.length x + String.length y)%nat.
Proof. induction x as [|c x IH]; simpl; [done|]. by rewrite IH. Qed.

Lemma substring_length (s : string) (n m : nat) :
  String.length (substring n m s) = (m `min` (String.length s - n))%nat.
Proof.
  revert n m. induction s as [|c s IH]; intros [|n] [|m];
    cbn [substring String.length]; rewrite ?IH; lia.
Qed.

Lemma substring_app_l (x y : string) (n m : nat) :
  (n + m ≤ String.length x)%nat →
  substring n m (x +:+ y) = substring n m x.
Proof.
  revert n m. induction x as [|c x IH]; intros [|n] [|m] Hle; simpl in *;
    try lia; try done.
  - destruct y; done.
  - by rewrite IH by lia.
  - by rewrite IH by lia.
  - by rewrite IH by lia.
Qed.

Lemma substring_all (s : string) (m : nat) :
  (String.length s ≤ m)%nat → substring 0 m s = s.
Proof.
  revert m. induction s as [|c s IH]; intros [|m] Hle; simpl in *;
    try lia; try done.
  by rewrite IH by lia.
Qed.

Lemma substring_app_tail (x y : string) (n : nat) :
  (n ≤ String.length x)%nat →
  substring n (String.length (x +:+ y) - n) (x +:+ y)
  = substring n (String.length x - n) x +:+ y.
Proof.
  revert n. induction x as [|c x IH]; intros n Hle;
    cbn [String.append String.length] in *.
  - assert (n = 0%nat) as -> by lia. rewrite Nat.sub_0_r.
    rewrite substring_all by lia. by destruct y.
  - change (String c x +:+ y) with (String c (x +:+ y)).
    cbn [String.length]. destruct n as [|n].
    2: { cbn [substring]. rewrite !Nat.sub_succ. apply IH. lia. }
    rewrite !Nat.sub_0_r. cbn [substring].
    specialize (IH 0%nat ltac:(lia)). rewrite !Nat.sub_0_r in IH.
    change (String c (substring 0 (String.length x) x) +:+ y)
      with (String c (substring 0 (String.length x) x +:+ y)).
    by rewrite IH.
Qed.

Lemma substring_prefix (s : string) (b n m : nat) :
  (n + m ≤ b)%nat →
  substring n m (substring 0 b s) = substring n m s.
Proof.
  revert b n m. induction s as [|c s IH]; intros [|b] [|n] [|m] Hle;
    simpl in *; try lia; try done.
  - by rewrite IH by lia.
  - by rewrite IH by lia.
  - by rewrite IH by lia.
Qed.

Lemma clampIndex_in_range (len i : Z) :
  0 ≤ i ≤ len → JsString.clampIndex len i = i.
Proof. intros Hi. unfold JsString.clampIndex. case_match; lia. Qed.

Lemma slice_to (s : string) (a : Z) :
  0 ≤ a ≤ JsString.len s →
  JsString.slice s 0 (Some a) = substring 0 (Z.to_nat a) s.
Proof.
  intros Ha. unfold JsString.slice.
  rewrite !clampIndex_in_range by (unfold JsString.len in *; lia).
  f_equal. lia.
Qed.

Lemma slice_from (s : string) (a : Z) :
  0 ≤ a ≤ JsString.len s →
  JsString.slice s a None
  = substring (Z.to_nat a) (String.length s - Z.to_nat a) s.
Proof.
  intros Ha. unfold JsString.slice.
  rewrite !clampIndex_in_range by (unfold JsString.len in *; lia).
  f_equal. unfold JsString.len. lia.
Qed.

Lemma slice_between (s : string) (a b : Z) :
  0 ≤ a ≤ b → b ≤ JsString.len s →
  JsString.slice s a (Some b)
  = substring (Z.to_nat a) (Z.to_nat b - Z.to_nat a) s.
Proof.
  intros Ha Hb. unfold JsString.slice.
  rewrite !clampIndex_in_range by (unfold JsString.len in *; lia).
  f_equal. lia.
Qed.

Lemma len_slice_to (s : string) (a : Z) :
  0 ≤ a ≤ JsString.len s → JsString.len (JsString.slice s 0 (Some a)) = a.
Proof.
  intros Ha. rewrite slice_to by done. unfold JsString.len in *.
  rewrite substring_length. lia.
Qed.

Lemma len_append (x y : string) :
  JsString.len (x +:+ y) = JsString.len x + JsString.len y.
Proof. unfold JsString.len. rewrite length_append. lia. Qed.

Lemma len_nonneg (s : string) : 0 ≤ JsString.len s.
Proof. unfold JsString.len. lia. Qed.

Lemma slice_to_to (s : string) (p a : Z) :
  0 ≤ p ≤ a → a ≤ JsString.len s →
  JsString.slice (JsString.slice s 0 (Some a)) 0 (Some p)
  = JsString.slice s 0 (Some p).
Proof.
  intros Hp Ha.
  rewrite (slice_to (JsString.slice s 0 (Some a)))
    by (rewrite len_slice_to; lia).
  rewrite !slice_to by lia. apply substring_prefix. lia.
Qed.

Lemma slice_to_from (s : string) (p a : Z) :
  0 ≤ p ≤ a → a ≤ JsString.len s →
  JsString.slice (JsString.slice s 0 (Some a)) p None
  = JsString.slice s p (Some a).
Proof.
  intros Hp Ha.
  rewrite (slice_from (JsString.slice s 0 (Some a)))
    by (rewrite len_slice_to; lia).
  rewrite (slice_between s p a), (slice_to s a) by lia.
  rewrite substring_length. unfold JsString.len in Ha.
  replace ((Z.to_nat a `min` (String.length s - 0)) - Z.to_nat p)%nat
    with (Z.to_nat a - Z.to_nat p)%nat by lia.
  apply substring_prefix. lia.
Qed.

Lemma slice_app_to (x y : string) (p : Z) :
  0 ≤ p ≤ JsString.len x →
  JsString.slice (x +:+ y) 0 (Some p) = JsString.slice x 0 (Some p).
Proof.
  intros Hp. pose proof (len_nonneg y).
  rewrite !slice_to by (rewrite ?len_append; lia).
  apply substring_app_l. unfold JsString.len in Hp. lia.
Qed.

Lemma slice_app_from (x y : string) (p : Z) :
  0 ≤ p ≤ JsString.len x →
  JsString.slice (x +:+ y) p None = JsString.slice x p None +:+ y.
Proof.
  intros Hp. pose proof (len_nonneg y).
  rewrite !slice_from by (rewrite ?len_append; lia).
  apply substring_app_tail. unfold JsString.len in Hp. lia.
Qed.

Lemma orderedFrom_cons (pos len : Z) (c : TextChange)
    (cs : list TextChange) :
  orderedFrom pos len (c :: cs) = true
  ↔ pos ≤ spanStart (span c)
    ∧ 0 ≤ spanLength (span c)
    ∧ orderedFrom (spanStart (span c) + spanLength (span c)) len cs = true.
Proof. simpl. rewrite !andb_true_iff, !Z.leb_le. tauto. Qed.

Lemma orderedFrom_le (pos len : Z) (changes : list TextChange) :
  orderedFrom pos len changes = true → pos ≤ len.
Proof.
  revert pos. induction changes as [|c cs IH]; intros pos;
    [by intros ?%Z.leb_le|].
  intros (Hp & Hl & Hcs)%orderedFrom_cons. specialize (IH _ Hcs). lia.
Qed.

Lemma spliceChange_eq (result : string) (change : TextChange) :
  spliceChange result change
  = JsString.slice result 0 (Some (spanStart (span change)))
    +:+ newText change
    +:+ JsString.slice result
          (spanStart (span change) + spanLength (span change)) None.
Proof. reflexivity. Qed.

(** The splices from the last edit to the first leave the text before
    [pos] alone, and behind [pos] they have every edit in place. *)
Lemma fold_splice_ordered (orig : string) (changes : list TextChange) (pos : Z) :
  0 ≤ pos →
  orderedFrom pos (JsString.len orig) changes = true →
  let result :=
    fold_right (λ change result, spliceChange result change) orig changes in
  pos ≤ JsString.len result
  ∧ JsString.slice result 0 (Some pos) = JsString.slice orig 0 (Some pos)
  ∧ JsString.slice result pos None = applyFrom orig pos changes.
Proof.
  revert pos. induction changes as [|c cs IH]; intros pos Hpos Hord.
  { apply Z.leb_le in Hord. done. }
  apply orderedFrom_cons in Hord as (Hstart & Hlen & Hord).
  cbn [fold_right].
  set (a := spanStart (span c)) in *. set (l := spanLength (span c)) in *.
  pose proof (orderedFrom_le _ _ _ Hord) as Hend.
  destruct (IH (a + l) ltac:(lia) Hord) as (Hin & Hhead & Htail).
  rewrite spliceChange_eq. fold a l. rewrite Htail.
  assert (JsString.slice
            (fold_right (λ change result, spliceChange result change) orig cs)
            0 (Some a)
          = JsString.slice orig 0 (Some a)) as ->.
  { rewrite <- (slice_to_to _ a (a + l)) by lia.
    rewrite Hhead. apply slice_to_to; lia. }
  assert (JsString.len (JsString.slice orig 0 (Some a)) = a) as Hla
    by (apply len_slice_to; lia).
  split_and!.
  - rewrite len_append, Hla.
    pose proof (len_nonneg (newText c +:+ applyFrom orig (a + l) cs)). lia.
  - rewrite slice_app_to by lia. apply slice_to_to; lia.
  - rewrite slice_app_from by lia. by rewrite slice_to_from by lia.
Qed.

(** C3. [formatCode] splices the edits into the text from the last edit to
    the first: the result is the right fold of the splice over the edit
    list, starting from the original text.  No edits leave the text as it
    is, and replacing the span [2,4) of "abcdef" by "X" gives "abXef".  For
    edits that are ordered and do not overlap, the outcome is the original
    text with every span replaced at its original offsets. *)
Theorem formatCode_last_to_first :
  (∀ orig changes,
     formatCode orig changes
     = fold_right (λ change result, spliceChange result change) orig changes)
  ∧ (∀ orig, formatCode orig [] = orig)
  ∧ formatCode "abcdef" [mkTextChange (mkTextSpan 2 2) "X"] = "abXef"
  ∧ (∀ orig changes,
       orderedFrom 0 (JsString.len orig) changes = true →
       formatCode orig changes = applyFrom orig 0 changes).
Proof.
  assert (∀ orig changes,
            formatCode orig changes
            = fold_right (λ change result, spliceChange result change)
                orig changes) as Hfold.
  { intros orig changes. unfold formatCode.
    rewrite formatCode_from_take by lia. by rewrite firstn_all. }
  split_and!; [exact Hfold|reflexivity|reflexivity|].
  intros orig changes Hord. rewrite Hfold.
  destruct (fold_splice_ordered orig changes 0 ltac:(lia) Hord)
    as (Hlen & _ & <-).
  rewrite slice_from by (split; [lia|exact Hlen]).
  simpl. rewrite Nat.sub_0_r. symmetry. apply substring_all. lia.
Qed.

(** ** Closure expansion *)

Section Expansion.

Context {N : Node} {U : Utils} {T : TypeScript}.

Implicit Types (d : Disk) (this : Program) (file : string).

Abbreviation hostMap this := (fileNameToScript (languageServiceHost this)).
Abbreviation fileList this := (files (project (projectFile this))).

Lemma hasScript_true (h : LanguageServiceHost) file :
  hasScript h file = true ↔ file ∈ dom (fileNameToScript h).
Proof.
  unfold hasScript. rewrite bool_decide_eq_true. symmetry. apply elem_of_dom.
Qed.

Lemma hasScript_false (h : LanguageServiceHost) file :
  hasScript h file = false ↔ fileNameToScript h !! file = None.
Proof.
  unfold hasScript. rewrite bool_decide_eq_false. symmetry. apply eq_None_not_Some.
Qed.

Lemma willNeedMoreAnalysis_known d file this :
  hasScript (languageServiceHost this) file = true →
  willNeedMoreAnalysis d file this = Ok false this.
Proof.
  intros Hk. unfold willNeedMoreAnalysis, mbind, M_bind, gets. by rewrite Hk.
Qed.

Lemma willNeedMoreAnalysis_new d file this content :
  hasScript (languageServiceHost this) file = false →
  d !! file = Some content →
  willNeedMoreAnalysis d file this = Ok true (withScript this file content).
Proof.
  intros Hk Hd.
  unfold willNeedMoreAnalysis, mbind, M_bind, gets, readFileSync.
  by rewrite Hk, Hd.
Qed.

Lemma willNeedMoreAnalysis_missing d file this :
  hasScript (languageServiceHost this) file = false →
  d !! file = None →
  willNeedMoreAnalysis d file this = Throw (IOError file) this.
Proof.
  intros Hk Hd.
  unfold willNeedMoreAnalysis, mbind, M_bind, gets, readFileSync.
  by rewrite Hk, Hd.
Qed.

Lemma filterM_cons {S A} (p : A → M S bool) (x : A) (l : list A) (s : S) :
  filterM p (x :: l) s
  = match p x s with
    | Ok keep s1 =>
        match filterM p l s1 with
        | Ok rest s2 => Ok (if keep then x :: rest else rest) s2
        | Throw e s2 => Throw e s2
        end
    | Throw e s1 => Throw e s1
    end.
Proof. reflexivity. Qed.


Lemma filterM_willNeedMoreAnalysis_scanned d l this more this' :
  filterM (willNeedMoreAnalysis d) l this = Ok more this' →
  scanned d l this more this'.
Proof.
  revert this more this'.
  induction l as [|x l IH]; intros this more this' Hrun.
  { injection Hrun as <- <-. split.
    - by rewrite app_nil_r.
    - done.
    - done.
    - done.
    - apply map_union_subseteq_l.
    - set_solver.
    - set_solver.
    - set_solver.
    - constructor.
    - done. }
  rewrite filterM_cons in Hrun.
  destruct (hasScript (languageServiceHost this) x) eqn:Hk.
  - rewrite (willNeedMoreAnalysis_known _ _ _ Hk) in Hrun.
    destruct (filterM _ l this) as [rest s2|] eqn:Hl; [|done].
    injection Hrun as <- <-.
    destruct (IH _ _ _ Hl) as [Hf Hdir Hid Hg Hfd Hdom Hall Hmore Hnd Hnil].
    split; try done.
    + intros f [->|Hin]%elem_of_cons; [|by auto].
      apply hasScript_true in Hk.
      by apply (subseteq_dom _ _ Hg).
    + intros f Hin. destruct (Hmore f Hin) as (?&?&?).
      split_and!; [by apply elem_of_cons; right|done|done].
  - destruct (d !! x) as [content|] eqn:Hd.
    2: { by rewrite (willNeedMoreAnalysis_missing _ _ _ Hk Hd) in Hrun. }
    rewrite (willNeedMoreAnalysis_new _ _ _ _ Hk Hd) in Hrun.
    destruct (filterM _ l _) as [rest s2|] eqn:Hl; [|done].
    injection Hrun as <- <-.
    destruct (IH _ _ _ Hl) as [Hf Hdir Hid Hg Hfd Hdom Hall Hmore Hnd Hnil].
    simpl in *.
    apply hasScript_false in Hk.
    assert (hostMap this ⊆ <[x:=content]> (hostMap this)) as Hins
      by (by apply insert_subseteq).
    split.
    + by rewrite Hf, <- app_assoc.
    + done.
    + done.
    + by etrans.
    + etrans; [done|]. apply map_subseteq_spec. intros i c.
      rewrite !lookup_union_Some_raw, lookup_insert.
      case_decide; naive_solver.
    + rewrite Hdom, dom_insert_L. set_solver.
    + intros f [->|Hin]%elem_of_cons; [|by auto].
      rewrite Hdom, dom_insert_L. set_solver.
    + intros f [->|Hin]%elem_of_cons.
      * split_and!; [by left| by apply not_elem_of_dom | by apply elem_of_dom].
      * destruct (Hmore f Hin) as (?&Hn&?).
        rewrite dom_insert_L in Hn.
        split_and!; [by apply elem_of_cons; right|set_solver|done].
    + constructor; [|done].
      intros Hx. destruct (Hmore x Hx) as (_&Hn&_).
      rewrite dom_insert_L in Hn. set_solver.
    + done.
Qed.

Lemma filterM_willNeedMoreAnalysis_throw d l this e this' :
  filterM (willNeedMoreAnalysis d) l this = Throw e this' →
  ∃ f, f ∈ l ∧ f ∉ dom (hostMap this) ∧ d !! f = None.
Proof.
  revert this. induction l as [|x l IH]; intros this Hrun; [done|].
  rewrite filterM_cons in Hrun.
  destruct (hasScript (languageServiceHost this) x) eqn:Hk.
  - rewrite (willNeedMoreAnalysis_known _ _ _ Hk) in Hrun.
    destruct (filterM _ l this) as [|e' s2] eqn:Hl; [done|].
    injection Hrun as -> ->.
    destruct (IH _ Hl) as (f & Hin & Hn & Hd).
    exists f. split_and!; [by apply elem_of_cons; right|done|done].
  - apply hasScript_false in Hk.
    destruct (d !! x) as [content|] eqn:Hd.
    + rewrite (willNeedMoreAnalysis_new _ _ _ content) in Hrun
        by (by rewrite ?hasScript_false).
      destruct (filterM _ l _) as [|e' s2] eqn:Hl; [done|].
      injection Hrun as -> ->.
      destruct (IH _ Hl) as (f & Hin & Hn & Hf).
      exists f. simpl in Hn. rewrite dom_insert_L in Hn.
      split_and!; [by apply elem_of_cons; right|set_solver|done].
    + exists x. split_and!; [by left|by apply not_elem_of_dom|done].
Qed.

Lemma mapM_cons {S A B} (f : A → M S B) (x : A) (l : list A) (s : S) :
  mapM f (x :: l) s
  = match f x s with
    | Ok y s1 =>
        match mapM f l s1 with
        | Ok ys s2 => Ok (y :: ys) s2
        | Throw e s2 => Throw e s2
        end
    | Throw e s1 => Throw e s1
    end.
Proof. reflexivity. Qed.

(** The scan of the file list: it returns the paths the listed files
    refer to when each of them has a script, and throws, the program
    untouched, at a listed file that has none. *)
Lemma mapM_referencedByFile (l : list string) this :
  match mapM referencedByFile l this with
  | Ok lists this' =>
      this' = this
      ∧ Forall2 (λ f refs,
                   ∃ content,
                     getScriptContent (languageServiceHost this) f = Some content
                     ∧ refs = referencedBy content f) l lists
  | Throw e this' =>
      this' = this ∧ e = TypeError "preProcessFile"
      ∧ ∃ f, f ∈ l ∧ getScriptContent (languageServiceHost this) f = None
  end.
Proof.
  induction l as [|f l IH].
  { simpl. split; [done|constructor]. }
  rewrite mapM_cons. unfold referencedByFile at 1, mbind, M_bind, gets.
  destruct (getScriptContent (languageServiceHost this) f) as [content|]
    eqn:Hcontent; simpl.
  - destruct (mapM referencedByFile l this) as [lists this'|e this'].
    + destruct IH as [-> Hall]. split; [done|].
      constructor; [by exists content|done].
    + destruct IH as (-> & -> & f' & Hf' & Hnone).
      split_and!; [done|done|]. exists f'. split; [by right|done].
  - split_and!; [done|done|]. exists f. split; [by left|done].
Qed.

Lemma getReferencedOrImportedFiles_spec (l : list string) this :
  match getReferencedOrImportedFiles l this with
  | Ok paths this' =>
      this' = this
      ∧ (∀ f, f ∈ l → is_Some (getScriptContent (languageServiceHost this) f))
      ∧ ∀ g, g ∈ paths
             ↔ ∃ f content,
                 f ∈ l
                 ∧ getScriptContent (languageServiceHost this) f = Some content
                 ∧ g ∈ referencedBy content f
  | Throw e this' =>
      this' = this ∧ e = TypeError "preProcessFile"
      ∧ ∃ f, f ∈ l ∧ getScriptContent (languageServiceHost this) f = None
  end.
Proof.
  unfold getReferencedOrImportedFiles, mbind, M_bind.
  pose proof (mapM_referencedByFile l this) as Hmap.
  destruct (mapM referencedByFile l this) as [lists this'|e this']; [|done].
  destruct Hmap as [-> Hall]. simpl. split; [done|].
  unfold selectMany. induction Hall as [|f refs l lists (c & Hc & ->) _ [IHh IHp]].
  - split; [by intros f ?%elem_of_nil|].
    intros g. split; [by intros ?%elem_of_nil|].
    by intros (f & c & ?%elem_of_nil & _).
  - split.
    + intros f' [->|Hf']%elem_of_cons; [by eexists|by apply IHh].
    + intros g. simpl. rewrite elem_of_app, IHp. split.
      * intros [Hg|(f' & c' & Hf' & Hc' & Hg)].
        -- exists f, c. split_and!; [by left|done|done].
        -- exists f', c'. split_and!; [by right|done|done].
      * intros (f' & c' & [->|Hf']%elem_of_cons & Hc' & Hg).
        -- left. congruence.
        -- right. by exists f', c'.
Qed.

Lemma scanForMore_unfold d this :
  scanForMore d this
  = match getReferencedOrImportedFiles (fileList this) this with
    | Ok paths _ => filterM (willNeedMoreAnalysis d) paths this
    | Throw e _ => Throw e this
    end.
Proof.
  unfold scanForMore, mbind at 1 2, M_bind at 1 2, gets.
  pose proof (getReferencedOrImportedFiles_spec (fileList this) this) as Hs.
  destruct (getReferencedOrImportedFiles (fileList this) this)
    as [paths this'|e this']; by destruct Hs as [-> _].
Qed.

(** What a scan that returns has looked at. *)
Lemma scanForMore_Ok d this more this' :
  scanForMore d this = Ok more this' →
  ∃ paths,
    getReferencedOrImportedFiles (fileList this) this = Ok paths this
    ∧ (∀ f, f ∈ fileList this →
            is_Some (getScriptContent (languageServiceHost this) f))
    ∧ (∀ g, g ∈ paths
            ↔ ∃ f content,
                f ∈ fileList this
                ∧ getScriptContent (languageServiceHost this) f = Some content
                ∧ g ∈ referencedBy content f)
    ∧ scanned d paths this more this'.
Proof.
  rewrite scanForMore_unfold.
  pose proof (getReferencedOrImportedFiles_spec (fileList this) this) as Hs.
  destruct (getReferencedOrImportedFiles (fileList this) this)
    as [paths this1|e this1]; [|done].
  destruct Hs as (-> & Hhosted & Hpaths). intros Hrun.
  exists paths. split_and!; [done|done|done|].
  by apply filterM_willNeedMoreAnalysis_scanned.
Qed.

Lemma scan_decreases d this x more this' :
  scanForMore d this = Ok (x :: more) this' →
  (size (unknownFiles d this') < size (unknownFiles d this))%nat.
Proof.
  intros (paths & _ & _ & _ & Hs)%scanForMore_Ok.
  destruct Hs as [_ _ _ _ _ Hdom _ Hmore _ _].
  destruct (Hmore x ltac:(by left)) as (_ & Hn & Hd).
  apply subset_size. unfold unknownFiles. rewrite Hdom.
  split; [set_solver|]. intros Hsub.
  assert (x ∈ dom d ∖ dom (hostMap this)) as Hx by set_solver.
  apply Hsub in Hx. set_solver.
Qed.

Lemma expansionLoop_terminates d fuel this :
  (size (unknownFiles d this) < fuel)%nat →
  is_Some (expansionLoop d fuel this).
Proof.
  revert this. induction fuel as [|fuel IH]; intros this Hlt; [lia|].
  simpl. destruct (scanForMore d this) as [[|x more] this'|e this'] eqn:Hs;
    [by eexists| |by eexists].
  apply IH. apply scan_decreases in Hs. lia.
Qed.

Lemma expansionLoop_mono d fuel fuel' this r :
  expansionLoop d fuel this = Some r →
  (fuel ≤ fuel')%nat →
  expansionLoop d fuel' this = Some r.
Proof.
  revert fuel' this. induction fuel as [|fuel IH]; intros fuel' this Hr Hle;
    [done|].
  destruct fuel' as [|fuel']; [lia|]. simpl in *.
  destruct (scanForMore d this) as [[|x more] this'|e this']; [done| |done].
  apply IH; [done|lia].
Qed.

Lemma expansionLoop_increase d fuel this r :
  expansionLoop d fuel this = Some r →
  increaseProjectForReferenceAndImports d this = r.
Proof.
  intros Hr. unfold increaseProjectForReferenceAndImports.
  destruct (expansionLoop_terminates d (expansionBound d this) this) as [r' Hr'];
    [unfold expansionBound; lia|].
  rewrite Hr'. simpl.
  destruct (Nat.le_ge_cases fuel (expansionBound d this)) as [Hle|Hle].
  - rewrite (expansionLoop_mono _ _ _ _ _ Hr Hle) in Hr'. congruence.
  - rewrite (expansionLoop_mono _ _ _ _ _ Hr' Hle) in Hr. congruence.
Qed.

(** A scan that finds nothing new leaves the program as it is; every
    listed file has a script, and so has every path a listed file refers
    to. *)
Lemma scan_nil d this this' :
  scanForMore d this = Ok [] this' →
  this' = this
  ∧ (∀ f, f ∈ fileList this → f ∈ dom (hostMap this))
  ∧ ∀ f content g,
      f ∈ fileList this →
      getScriptContent (languageServiceHost this) f = Some content →
      g ∈ referencedBy content f →
      g ∈ dom (hostMap this).
Proof.
  intros (paths & _ & Hhosted & Hpaths & Hs)%scanForMore_Ok.
  destruct Hs as [_ _ _ _ _ _ Hall _ _ Hnil].
  specialize (Hnil eq_refl) as ->. split_and!; [done| |].
  - intros f Hf. apply elem_of_dom. by apply Hhosted.
  - intros f content g Hf Hc Hg. apply Hall, Hpaths. by exists f, content.
Qed.

Lemma filterM_all_known d (paths : list string) this :
  (∀ g, g ∈ paths → hasScript (languageServiceHost this) g = true) →
  filterM (willNeedMoreAnalysis d) paths this = Ok [] this.
Proof.
  induction paths as [|x l IH]; intros Hall; [done|].
  rewrite filterM_cons, willNeedMoreAnalysis_known
    by (apply Hall; by left).
  rewrite IH; [done|]. intros g Hg. apply Hall. by right.
Qed.

Lemma scan_all_known d this (paths : list string) :
  getReferencedOrImportedFiles (fileList this) this = Ok paths this →
  (∀ g, g ∈ paths → hasScript (languageServiceHost this) g = true) →
  scanForMore d this = Ok [] this.
Proof.
  intros Hpaths Hall. rewrite scanForMore_unfold, Hpaths.
  by apply filterM_all_known.
Qed.

(** The list [referencedBy] computes holds exactly the paths the text
    declares. *)
Lemma elem_of_referencedBy (content file g : string) :
  g ∈ referencedBy content file ↔ declares content file g.
Proof.
  unfold referencedBy. rewrite elem_of_app, !list_elem_of_fmap. split.
  - intros [(r & -> & Hr)|(r & -> & Hr)].
    + by apply (declares_reference _ _ _ r).
    + apply list_elem_of_In, filter_In in Hr as [Hr Hrel].
      apply (declares_import _ _ _ r); [by apply list_elem_of_In|done|done].
  - intros [r Hr ->|r Hr Hrel ->]; [left|right]; exists r; split; try done.
    apply list_elem_of_In, filter_In. by rewrite <- list_elem_of_In.
Qed.

Lemma expanding_start d this0 :
  (∀ f, f ∈ fileList this0 → hasScript (languageServiceHost this0) f = true) →
  expanding d this0 this0.
Proof.
  intros Hhost. split; [done|apply map_union_subseteq_l| |done|].
  - apply set_eq. intros f. rewrite elem_of_union, elem_of_list_to_set.
    split; [by left|]. intros [?|Hf]; [done|]. by apply hasScript_true, Hhost.
  - intros f Hf. exists f. split; [done|apply rtc_refl].
Qed.

(** During the expansion a hosted file has the text it has once loaded. *)
Lemma expanding_sourceText d this0 this f (content : string) :
  expanding d this0 this →
  getScriptContent (languageServiceHost this) f = Some content →
  sourceText d (languageServiceHost this0) f = Some content.
Proof.
  intros [_ Hfd _ _ _] Hc. by apply (lookup_weaken _ _ _ _ Hc Hfd).
Qed.

Lemma expanding_scanned_reachable d this0 this f (content g : string) :
  expanding d this0 this →
  f ∈ fileList this →
  getScriptContent (languageServiceHost this) f = Some content →
  g ∈ referencedBy content f →
  g ∉ dom (hostMap this) →
  reachableNew d this0 g.
Proof.
  intros Hinv Hf Hc Hg Hn.
  destruct (expanding_reachable _ _ _ Hinv f Hf) as (f0 & Hf0 & Hpath).
  exists f0. split; [done|]. eapply rtc_r; [done|]. split.
  - exists content. split; [by apply (expanding_sourceText d this0 this)|].
    by apply elem_of_referencedBy.
  - apply hasScript_false, not_elem_of_dom. intros Hin. apply Hn.
    by apply (subseteq_dom _ _ (expanding_grow _ _ _ Hinv)).
Qed.

Lemma expanding_scan d this0 this more this' :
  expanding d this0 this →
  scanForMore d this = Ok more this' →
  expanding d this0 this'.
Proof.
  intros Hinv (paths & _ & _ & Hpaths & Hs)%scanForMore_Ok.
  destruct Hs as [Hfiles _ _ Hg Hfd Hdom _ Hmore _ _].
  destruct Hinv as [Hg0 Hfd0 Hdom0 Hinit Hreach] eqn:Hinv'. split.
  - by etrans.
  - etrans; [done|]. apply map_subseteq_spec. intros i c.
    rewrite lookup_union_Some_raw. intros [Hi|[Hi Hd]].
    + by apply (lookup_weaken _ _ _ _ Hi Hfd0).
    + rewrite lookup_union_Some_raw. right. split; [|done].
      destruct (hostMap this0 !! i) as [c'|] eqn:H0i; [|done].
      by rewrite (lookup_weaken _ _ _ _ H0i Hg0) in Hi.
  - rewrite Hdom, Hdom0, Hfiles, list_to_set_app_L. set_solver.
  - intros f Hf. rewrite Hfiles. apply elem_of_app. left. by apply Hinit.
  - intros f. rewrite Hfiles. intros [Hf|Hf]%elem_of_app; [by apply Hreach|].
    destruct (Hmore f Hf) as ((f1 & c & Hf1 & Hc & Hin)%Hpaths & Hn & _).
    by apply (expanding_scanned_reachable d this0 this f1 c).
Qed.

(** With every reachable file at hand, a scan does not throw. *)
Lemma expanding_scan_ok d this0 this :
  expanding d this0 this →
  (∀ g, reachableNew d this0 g → g ∉ fileList this0 → is_Some (d !! g)) →
  ∃ more this', scanForMore d this = Ok more this'.
Proof.
  intros Hinv Hres.
  destruct (scanForMore d this) as [more this'|e this'] eqn:Hs; [by eauto|].
  exfalso. rewrite scanForMore_unfold in Hs.
  pose proof (getReferencedOrImportedFiles_spec (fileList this) this) as Hspec.
  destruct (getReferencedOrImportedFiles (fileList this) this)
    as [paths this1|e1 this1].
  - destruct Hspec as (_ & _ & Hpaths).
    apply filterM_willNeedMoreAnalysis_throw in Hs as (g & Hg & Hn & Hd).
    apply Hpaths in Hg as (f & c & Hf & Hc & Hg).
    pose proof (expanding_scanned_reachable _ _ _ _ _ _ Hinv Hf Hc Hg Hn) as Hr.
    destruct (Hres g Hr) as [c' Hc']; [|congruence].
    intros Hin. apply Hn. rewrite (expanding_dom _ _ _ Hinv).
    apply elem_of_union_r, elem_of_list_to_set.
    by apply (expanding_initial _ _ _ Hinv).
  - destruct Hspec as (_ & _ & f & Hf & Hnone).
    assert (f ∈ dom (hostMap this)) as [c Hc]%elem_of_dom.
    { rewrite (expanding_dom _ _ _ Hinv). set_solver. }
    unfold getScriptContent in Hnone. congruence.
Qed.

(** A scan that finds nothing new has reached every file that can be
    reached along edges to files the host did not hold. *)
Lemma expanding_closed d this0 this :
  expanding d this0 this →
  scanForMore d this = Ok [] this →
  ∀ g, g ∈ fileList this ↔ reachableNew d this0 g.
Proof.
  intros Hinv Hs g. split; [by apply (expanding_reachable _ _ _ Hinv)|].
  apply scan_nil in Hs as (_ & Hhosted & Hall).
  intros (f & Hf & Hpath).
  apply (expanding_initial _ _ _ Hinv) in Hf.
  induction Hpath as [f|f f' g [(c & Hc & Hdecl) Hnew] _ IH]; [done|].
  apply IH.
  pose proof (Hhosted f Hf) as Hfd. apply elem_of_dom in Hfd as [c' Hc'].
  assert (c' = c) as ->.
  { pose proof (expanding_sourceText d this0 this f c' Hinv Hc'). congruence. }
  assert (f' ∈ dom (hostMap this)) as Hd
    by (apply (Hall f c); [done|done|by apply elem_of_referencedBy]).
  rewrite (expanding_dom _ _ _ Hinv) in Hd.
  apply hasScript_false, not_elem_of_dom in Hnew. set_solver.
Qed.

Lemma expansionLoop_closure d this0 fuel this r :
  expanding d this0 this →
  (∀ g, reachableNew d this0 g → g ∉ fileList this0 → is_Some (d !! g)) →
  expansionLoop d fuel this = Some r →
  ∃ this', r = Ok tt this'
           ∧ ∀ g, g ∈ fileList this' ↔ reachableNew d this0 g.
Proof.
  intros Hinv Hres. revert this Hinv.
  induction fuel as [|fuel IH]; intros this Hinv Hr; [done|].
  simpl in Hr.
  destruct (expanding_scan_ok _ _ _ Hinv Hres) as (more & this' & Hs).
  rewrite Hs in Hr. destruct more as [|x more].
  - injection Hr as <-. exists this'. split; [done|].
    destruct (scan_nil _ _ _ Hs) as [-> _].
    by apply (expanding_closed d this0).
  - apply (IH this'); [|done]. by apply (expanding_scan _ _ _ _ _ Hinv Hs).
Qed.

(** When the host holds no file outside the file list, the edges to new
    files reach what all edges reach. *)
Lemma reachableNew_reachable d this g :
  (∀ f, hasScript (languageServiceHost this) f = true → f ∈ fileList this) →
  reachableNew d this g ↔ reachable d this g.
Proof.
  intros Hlisted. split.
  - intros (f & Hf & Hpath). exists f. split; [done|]. clear Hf.
    induction Hpath as [|f f' g [Hedge _] _ IH]; [apply rtc_refl|].
    eapply rtc_l; [exact Hedge|exact IH].
  - intros (f & Hf & Hpath).
    assert (reachableNew d this f) as Hr by (exists f; split; [done|apply rtc_refl]).
    clear Hf. induction Hpath as [|f f' g Hedge _ IH]; [done|].
    apply IH.
    destruct (hasScript (languageServiceHost this) f') eqn:Hk.
    + exists f'. split; [by apply Hlisted|apply rtc_refl].
    + destruct Hr as (f0 & Hf0 & Hpath0). exists f0. split; [done|].
      eapply rtc_r; [done|]. by split.
Qed.

(** C1 (amended). When every listed file has a script in the host and
    every file that can be reached along edges to files the host does not
    hold yet can be read from disk, [increaseProjectForReferenceAndImports]
    returns, and the file list it leaves is the set of files reachable from
    the initial files along reference and relative-import edges to files
    the host did not hold.  When the host holds no file outside the file
    list, this is the transitive closure of the reference/import relation:
    every reachable file is in the list, and nothing else is. *)
Theorem increaseProject_transitive_closure d this :
  (∀ f, f ∈ fileList this → hasScript (languageServiceHost this) f = true) →
  (∀ g, reachableNew d this g → g ∉ fileList this → is_Some (d !! g)) →
  ∃ this',
    increaseProjectForReferenceAndImports d this = Ok tt this'
    ∧ (∀ g, g ∈ fileList this' ↔ reachableNew d this g)
    ∧ ((∀ f, hasScript (languageServiceHost this) f = true →
             f ∈ fileList this) →
       ∀ g, g ∈ fileList this' ↔ reachable d this g).
Proof.
  intros Hhost Hres.
  destruct (expansionLoop_terminates d (expansionBound d this) this) as [r Hr];
    [unfold expansionBound; lia|].
  destruct (expansionLoop_closure d this _ this r (expanding_start _ _ Hhost)
              Hres Hr) as (this' & -> & Hcl).
  exists this'. split_and!; [by apply (expansionLoop_increase _ _ _ _ Hr)|done|].
  intros Hlisted g. by rewrite Hcl, reachableNew_reachable.
Qed.

(** C2. The expansion loop terminates on every disk and every program,
    cyclic references included: [expansionBound] scans are always enough,
    and more fuel does not change the outcome.  A scan that finds files
    appends exactly those files, none of which the host knew, so the set of
    files still unknown shrinks; and when the scan of the file list returns
    paths that are all known, it finds nothing and the loop exits at
    once. *)
Theorem expansion_terminates d this fuel :
  (expansionBound d this ≤ fuel)%nat →
  expansionLoop d fuel this
  = Some (increaseProjectForReferenceAndImports d this)
  ∧ (∀ x more this',
       scanForMore d this = Ok (x :: more) this' →
       fileList this' = fileList this ++ x :: more
       ∧ Forall (λ f, hasScript (languageServiceHost this) f = false) (x :: more)
       ∧ unknownFiles d this' ⊂ unknownFiles d this)
  ∧ (∀ paths,
       getReferencedOrImportedFiles (fileList this) this = Ok paths this →
       (∀ g, g ∈ paths → hasScript (languageServiceHost this) g = true) →
       expansionLoop d fuel this = Some (Ok tt this)).
Proof.
  intros Hfuel. split_and!.
  - destruct (expansionLoop_terminates d fuel this) as [r Hr];
      [unfold expansionBound in Hfuel; lia|].
    by rewrite Hr, (expansionLoop_increase _ _ _ _ Hr).
  - intros x more this' (paths & _ & _ & _ & Hs)%scanForMore_Ok.
    destruct Hs as [Hfiles _ _ _ _ Hdom _ Hmore _ _].
    split_and!; [done| |].
    + apply Forall_forall. intros f Hf. destruct (Hmore f Hf) as (_ & Hn & _).
      apply hasScript_false. by apply not_elem_of_dom.
    + destruct (Hmore x ltac:(by left)) as (_ & Hn & Hd).
      unfold unknownFiles. rewrite Hdom. split; [set_solver|]. intros Hsub.
      assert (x ∈ dom d ∖ dom (hostMap this)) as Hx by set_solver.
      apply Hsub in Hx. set_solver.
  - intros paths Hpaths Hall.
    apply (expansionLoop_mono d 1); [|unfold expansionBound in *; lia].
    simpl. by rewrite (scan_all_known _ _ _ Hpaths Hall).
Qed.

Lemma expansionLoop_exit d fuel this this' :
  expansionLoop d fuel this = Some (Ok tt this') →
  scanForMore d this' = Ok [] this'.
Proof.
  revert this. induction fuel as [|fuel IH]; intros this Hr; [done|].
  simpl in Hr.
  destruct (scanForMore d this) as [[|x more] this1|e this1] eqn:Hs;
    [|by eauto|done].
  injection Hr as ->. by destruct (scan_nil _ _ _ Hs) as [<- _].
Qed.

(** C8. Adding a file the host already has is a no-op:
    [willNeedMoreAnalysis] answers [false] and returns the program
    unchanged, host and file list included.  Hence the expansion of a
    program whose scanned paths are all known changes nothing, and running
    the expansion a second time returns the program the first run left. *)
Theorem expansion_idempotent d this :
  (∀ file, hasScript (languageServiceHost this) file = true →
           willNeedMoreAnalysis d file this = Ok false this)
  ∧ (∀ paths,
       getReferencedOrImportedFiles (fileList this) this = Ok paths this →
       (∀ g, g ∈ paths → hasScript (languageServiceHost this) g = true) →
       increaseProjectForReferenceAndImports d this = Ok tt this)
  ∧ (∀ this',
       increaseProjectForReferenceAndImports d this = Ok tt this' →
       increaseProjectForReferenceAndImports d this' = Ok tt this').
Proof.
  split_and!.
  - intros file. apply willNeedMoreAnalysis_known.
  - intros paths Hpaths Hall. apply (expansionLoop_increase d 1). simpl.
    by rewrite (scan_all_known _ _ _ Hpaths Hall).
  - intros this' Hrun.
    destruct (expansionLoop_terminates d (expansionBound d this) this)
      as [r Hr]; [unfold expansionBound; lia|].
    rewrite (expansionLoop_increase _ _ _ _ Hr) in Hrun. subst r.
    apply expansionLoop_exit in Hr.
    apply (expansionLoop_increase d 1). simpl. by rewrite Hr.
Qed.

End Expansion.

(** ** The scan's resolution rule *)

Section Resolution.

Context {N : Node} {U : Utils} {T : TypeScript}.

(** C7 (amended). A path is discovered in a file exactly when it is the
    resolution, against the file's directory, of one of its references, or
    of one of its relative imports with ['.ts'] appended; the suffix is
    appended to every relative import, whether or not it carries an
    extension already, and imports that are not relative are left out. *)
Theorem referencedBy_resolves (content file g : string) :
  let info := preProcessFile content true in
  g ∈ referencedBy content file
  ↔ (∃ r, r ∈ referencedFiles info
          ∧ g = pathResolve (dirname file) (FileReference.filename r))
    ∨ (∃ r, r ∈ importedFiles info
            ∧ pathIsRelative (FileReference.filename r) = true
            ∧ g = pathResolve (dirname file)
                    (FileReference.filename r +:+ ".ts")).
Proof.
  intros info. unfold referencedBy. fold info.
  rewrite elem_of_app, !list_elem_of_fmap.
  split; intros [(r & Hg & Hr)|(r & Hg & Hr)]; [left|right|left|right].
  - by exists r.
  - apply list_elem_of_In, filter_In in Hr as [Hr Hrel].
    exists r. by rewrite <- list_elem_of_In in Hr.
  - by exists r.
  - destruct Hr as [Hrel ->]. exists r. split; [done|].
    apply list_elem_of_In, filter_In. by rewrite <- list_elem_of_In.
Qed.

(** The code and the spec's wording agree on the files whose relative
    imports carry no extension. *)
Lemma referencedBy_spec_agree (content file : string) :
  (∀ r, r ∈ importedFiles (preProcessFile content true) →
        pathIsRelative (FileReference.filename r) = true →
        extname (FileReference.filename r) = "") →
  referencedBy content file = referencedBy_spec content file.
Proof.
  intros Hext. unfold referencedBy, referencedBy_spec. f_equal.
  apply map_ext_in. intros r [Hr Hrel]%filter_In.
  unfold withSourceExtension.
  by rewrite (Hext r) by (by rewrite ?list_elem_of_In).
Qed.

End Resolution.

(** ** Emit, the cache and diagnostics *)

Section Manager.

Context {N : Node} {U : Utils} {T : TypeScript} {L : HostModule}
  {C : TsConfig}.

Implicit Types (w : World) (this program : Program) (path : string).


Lemma sameCache_refl w : sameCache w w.
Proof. done. Qed.

Lemma sameCache_trans w1 w2 w3 :
  sameCache w1 w2 → sameCache w2 w3 → sameCache w1 w3.
Proof. intros [? ?] [? ?]. split; congruence. Qed.

Lemma forEach_app {S A} (f : A → M S unit) (l1 l2 : list A) (s s1 : S) :
  forEach f l1 s = Ok tt s1 →
  forEach f (l1 ++ l2) s = forEach f l2 s1.
Proof.
  revert s. induction l1 as [|x l1 IH]; intros s Hrun; simpl in *.
  - by injection Hrun as ->.
  - unfold mbind, M_bind in *. destruct (f x s) as [[] s'|]; [|done]. by apply IH.
Qed.

(** After the writes, each output is on disk under its own name, as long
    as no two outputs share a name. *)
Lemma writeOutputs_lookup (outs : list OutputFile.t) (d : Disk)
    (o : OutputFile.t) :
  NoDup (map OutputFile.name outs) →
  o ∈ outs →
  writeOutputs outs d !! OutputFile.name o = Some (OutputFile.text o).
Proof.
  unfold writeOutputs. revert d.
  induction outs as [|o' outs IH] using rev_ind; intros d Hnd Hin;
    [by apply elem_of_nil in Hin|].
  rewrite fold_left_app. simpl.
  rewrite map_app in Hnd. apply NoDup_app in Hnd as (Hnd & Hfresh & _).
  apply elem_of_app in Hin as [Hin|Hin%list_elem_of_singleton].
  - rewrite lookup_insert_ne; [by apply IH|].
    intros Heq. apply (Hfresh (OutputFile.name o)).
    + apply list_elem_of_fmap. by exists o.
    + rewrite <- Heq. simpl. by left.
  - subst o'. by rewrite lookup_insert_eq.
Qed.

Lemma forEach_write_ok (outs : list OutputFile.t) w :
  writable (disk w) outs = true →
  forEach (λ o, writeFileSync (OutputFile.name o) (OutputFile.text o)) outs w
  = Ok tt (setDisk (writeOutputs outs (disk w)) w).
Proof.
  revert w. induction outs as [|o outs IH]; intros w Hw; simpl in *.
  - by destruct w.
  - apply andb_true_iff in Hw as [Ho Hw].
    unfold mbind, M_bind, writeFileSync. rewrite Ho.
    rewrite IH by done. by destruct w.
Qed.

Lemma forEach_write_fail (pre post : list OutputFile.t) (o : OutputFile.t) w :
  writable (disk w) pre = true →
  canWrite (writeOutputs pre (disk w)) (OutputFile.name o) = false →
  forEach (λ o, writeFileSync (OutputFile.name o) (OutputFile.text o))
    (pre ++ o :: post) w
  = Throw (IOError (OutputFile.name o)) (setDisk (writeOutputs pre (disk w)) w).
Proof.
  intros Hpre Ho.
  rewrite (forEach_app _ _ _ _ _ (forEach_write_ok _ _ Hpre)).
  simpl. unfold mbind, M_bind, writeFileSync. simpl. by rewrite Ho.
Qed.

Lemma forEach_write_sameCache (outs : list OutputFile.t) w :
  sameCache w
    (stateOf (forEach (λ o, writeFileSync (OutputFile.name o) (OutputFile.text o))
                outs w)).
Proof.
  revert w. induction outs as [|o outs IH]; intros w; simpl; [done|].
  unfold mbind, M_bind, writeFileSync.
  destruct (canWrite (disk w) (OutputFile.name o)); [|done].
  eapply sameCache_trans; [|apply IH]. done.
Qed.

Lemma forEach_logDiagnostic (ds : list Diagnostic.t) w :
  ∃ w', forEach logDiagnostic ds w = Ok tt w'
        ∧ disk w' = disk w ∧ requests w' = requests w ∧ sameCache w w'.
Proof.
  revert w. induction ds as [|dg ds IH]; intros w; simpl; [by exists w|].
  unfold mbind, M_bind, logDiagnostic.
  destruct (Diagnostic.file dg) as [sf|]; simpl.
  - destruct (IH (mkWorld (disk w)
                    (console w ++
                       [LogDiagnosticLine (SourceFile.filename sf)
                          (line (getLineAndCharacterFromPosition sf (Diagnostic.start dg)))
                          (character (getLineAndCharacterFromPosition sf (Diagnostic.start dg)))
                          (Diagnostic.messageText dg)])
                    (requests w) (programs w) (instances w)))
      as (w' & Hrun & ? & ? & ?).
    exists w'. by rewrite <- Hrun.
  - apply IH.
Qed.

(** [emitFile] is its logging part, which leaves the disk and the cache
    alone, followed by the writes, whatever the status of the emit. *)
Lemma emitFile_unfold this path w :
  let output := getEmitOutput (languageServiceHost this) path in
  let names := map OutputFile.name (ts.outputFiles output) in
  ∃ w0,
    disk w0 = disk w ∧ sameCache w w0
    ∧ emitFile this path w
      = match forEach (λ o, writeFileSync (OutputFile.name o) (OutputFile.text o))
                (ts.outputFiles output) w0 with
        | Ok _ w' =>
            Ok (mkEmitOutput
                  (if String.eqb (extname path) ".d.ts"
                   then names ++ [path] else names)
                  (bool_decide (ts.emitOutputStatus output = Succeeded))) w'
        | Throw e w' => Throw e w'
        end.
Proof.
  intros output names. unfold emitFile. fold output.
  unfold mbind, M_bind, request, consoleLog, modify. simpl.
  destruct (bool_decide (ts.emitOutputStatus output = Succeeded)).
  - eexists. split_and!; [| |reflexivity]; done.
  - simpl.
    match goal with |- context [forEach logDiagnostic ?ds ?w1] =>
      destruct (forEach_logDiagnostic ds w1) as (w0 & -> & Hd & _ & Hc)
    end.
    exists w0. split_and!; [done|done|]. simpl.
    by destruct (forEach _ _ w0) as [[] ?|].
Qed.

(** C9. [emitFile] writes the output files the compiler service produced,
    each at the path the service names, and the status of the emit plays no
    part in it.  When every write succeeds the call returns and the disk
    holds all of them; when the write of a later file fails the call throws
    and the files before it stay written. *)
Theorem emitFile_writes_outputs this path w
    (pre rest : list OutputFile.t) :
  ts.outputFiles (getEmitOutput (languageServiceHost this) path) = pre ++ rest →
  writable (disk w) pre = true →
  (rest = [] →
   ∃ out w',
     emitFile this path w = Ok out w'
     ∧ disk w' = writeOutputs pre (disk w)
     ∧ (NoDup (map OutputFile.name pre) →
        ∀ o, o ∈ pre →
             disk w' !! OutputFile.name o = Some (OutputFile.text o))
     ∧ success out
       = bool_decide
           (ts.emitOutputStatus (getEmitOutput (languageServiceHost this) path)
            = Succeeded))
  ∧ (∀ o post,
       rest = o :: post →
       canWrite (writeOutputs pre (disk w)) (OutputFile.name o) = false →
       ∃ w',
         emitFile this path w = Throw (IOError (OutputFile.name o)) w'
         ∧ disk w' = writeOutputs pre (disk w)).
Proof.
  intros Houts Hpre.
  destruct (emitFile_unfold this path w) as (w0 & Hd & _ & ->).
  rewrite Houts, <- Hd in *. split.
  - intros ->. rewrite app_nil_r, forEach_write_ok by done.
    eexists _, _. split_and!; [reflexivity|done| |done].
    intros Hnd o Ho. simpl. by apply writeOutputs_lookup.
  - intros o post -> Ho. rewrite forEach_write_fail by done.
    eexists. split; [reflexivity|done].
Qed.

Lemma emitFile_sameCache this path w :
  sameCache w (stateOf (emitFile this path w)).
Proof.
  destruct (emitFile_unfold this path w) as (w0 & _ & Hc & ->).
  eapply sameCache_trans; [exact Hc|].
  pose proof (forEach_write_sameCache
                (ts.outputFiles (getEmitOutput (languageServiceHost this) path))
                w0) as Hw.
  by destruct (forEach _ _ w0).
Qed.

Lemma init_sameCache this w : sameCache w (stateOf (init this w)).
Proof.
  unfold init. revert w.
  induction (files (project (projectFile this))) as [|f l IH]; intros w;
    simpl; [done|].
  unfold mbind, M_bind. pose proof (emitFile_sameCache this f w) as Hf.
  destruct (emitFile this f w) as [out w1|e w1]; simpl in *; [|done].
  eapply sameCache_trans; [exact Hf|apply IH].
Qed.

Lemma expansionLoop_identity (d : Disk) (fuel : nat) this this' :
  expansionLoop d fuel this = Some (Ok tt this') →
  projectFileDirectory (projectFile this')
  = projectFileDirectory (projectFile this)
  ∧ instanceId this' = instanceId this.
Proof.
  revert this. induction fuel as [|fuel IH]; intros this Hr; [done|].
  simpl in Hr.
  destruct (scanForMore d this) as [more this1|e this1] eqn:Hs; [|by destruct e].
  apply scanForMore_Ok in Hs as (paths & _ & _ & _ & Hs).
  destruct Hs as [_ Hdir Hid _ _ _ _ _ _ _].
  destruct more as [|x more].
  - injection Hr as <-. done.
  - destruct (IH _ Hr) as [-> ->]. done.
Qed.

Lemma increaseProject_identity (d : Disk) this this' :
  increaseProjectForReferenceAndImports d this = Ok tt this' →
  projectFileDirectory (projectFile this')
  = projectFileDirectory (projectFile this)
  ∧ instanceId this' = instanceId this.
Proof.
  intros Hrun.
  destruct (expansionLoop_terminates d (expansionBound d this) this) as [r Hr];
    [unfold expansionBound; lia|].
  rewrite (expansionLoop_increase _ _ _ _ Hr) in Hrun. subst r.
  by apply (expansionLoop_identity d _ _ _ Hr).
Qed.

(** A construction allocates one identity and leaves the cache alone; the
    program it returns carries that identity and the directory it was
    given. *)
Lemma newProgram_spec (details : TypeScriptProjectFileDetails) w :
  programs (stateOf (newProgram details w)) = programs w
  ∧ instances (stateOf (newProgram details w)) = S (instances w)
  ∧ ∀ p w', newProgram details w = Ok p w' →
            instanceId p = instances w
            ∧ projectFileDirectory (projectFile p)
              = projectFileDirectory details.
Proof.
  unfold newProgram.
  destruct (increaseProjectForReferenceAndImports _ _) as [[] this|e this]
    eqn:Hinc; simpl; [|done].
  apply increaseProject_identity in Hinc as [Hdir Hid]. simpl in *.
  unfold mbind, M_bind.
  match goal with |- context [init this ?w0] =>
    pose proof (init_sameCache this w0) as [Hp Hi];
    destruct (init this w0) as [[] w1|e w1]
  end; simpl in *; split_and!; try done.
  by intros p w' [= <- <-].
Qed.

Lemma getOrCreateProject_sameCache path w :
  sameCache w (stateOf (getOrCreateProject path w)).
Proof.
  unfold getOrCreateProject.
  destruct (getProjectSync _ _); [done|].
  by destruct (createProjectRootSync _ _) as [[??]|].
Qed.

Lemma getOrCreateProgram_hit path w (details : TypeScriptProjectFileDetails)
    wd p :
  getOrCreateProject path w = Ok details wd →
  programs w !! projectFileDirectory details = Some p →
  getOrCreateProgram path w = Ok p wd.
Proof.
  intros Hproj Hp. unfold getOrCreateProgram, mbind, M_bind, gets.
  pose proof (getOrCreateProject_sameCache path w) as [Hc _].
  rewrite Hproj in *. simpl in Hc. by rewrite Hc, Hp.
Qed.

Lemma cacheOk_insert w w' (p : Program) :
  cacheOk w →
  programs w !! projectFileDirectory (projectFile p) = None →
  instanceId p = instances w →
  programs w' = <[projectFileDirectory (projectFile p) := p]> (programs w) →
  instances w' = S (instances w) →
  cacheOk w'.
Proof.
  intros [Hown Hinj] Hfresh Hid Hp Hi. unfold cacheOk. rewrite Hp, Hi. split.
  - intros dir q [[<- <-]|[Hne Hq]]%lookup_insert_Some; [split; [done|lia]|].
    destruct (Hown _ _ Hq). split; [done|lia].
  - intros dir1 dir2 p1 p2.
    intros [[<- <-]|[Hne1 Hq1]]%lookup_insert_Some
           [[<- <-]|[Hne2 Hq2]]%lookup_insert_Some Heq; [done| | |by eauto].
    + destruct (Hown _ _ Hq2). lia.
    + destruct (Hown _ _ Hq1). lia.
Qed.

Lemma cacheOk_grow w w' :
  cacheOk w → programs w' = programs w → (instances w ≤ instances w')%nat →
  cacheOk w'.
Proof.
  intros [Hown Hinj] Hp Hle. unfold cacheOk. rewrite Hp. split; [|done].
  intros dir p Hq. destruct (Hown _ _ Hq). split; [done|lia].
Qed.

(** C4. Every call to [getOrCreateProgram] keeps the cache well formed and
    keeps every entry it finds: a program, once cached, stays the program
    of its project directory.  The program a call returns is cached under
    the directory its path resolved to, and from then on every call whose
    path resolves to that directory returns this very program (same
    identity, same contents) and constructs nothing. *)
Theorem getOrCreateProgram_cache path w :
  cacheOk w →
  cacheOk (stateOf (getOrCreateProgram path w))
  ∧ programs w ⊆ programs (stateOf (getOrCreateProgram path w))
  ∧ ∀ p w1,
      getOrCreateProgram path w = Ok p w1 →
      (∃ details wd,
         getOrCreateProject path w = Ok details wd
         ∧ projectFileDirectory (projectFile p) = projectFileDirectory details)
      ∧ programs w1 !! projectFileDirectory (projectFile p) = Some p
      ∧ ∀ w2 path2 details2 wd2,
          programs w1 ⊆ programs w2 →
          getOrCreateProject path2 w2 = Ok details2 wd2 →
          projectFileDirectory details2
          = projectFileDirectory (projectFile p) →
          ∃ w3, getOrCreateProgram path2 w2 = Ok p w3 ∧ sameCache w2 w3.
Proof.
  intros Hok.
  assert (∀ p (m : gmap string Program),
            m !! projectFileDirectory (projectFile p) = Some p →
            ∀ w2 path2 (details2 : TypeScriptProjectFileDetails) wd2,
              m ⊆ programs w2 →
              getOrCreateProject path2 w2 = Ok details2 wd2 →
              projectFileDirectory details2
              = projectFileDirectory (projectFile p) →
              ∃ w3, getOrCreateProgram path2 w2 = Ok p w3 ∧ sameCache w2 w3)
    as Hlater.
  { intros p m Hp w2 path2 details2 wd2 Hsub Hproj Hdir.
    exists wd2. split.
    - apply (getOrCreateProgram_hit _ _ details2); [done|].
      rewrite Hdir. by apply (lookup_weaken _ _ _ _ Hp Hsub).
    - pose proof (getOrCreateProject_sameCache path2 w2) as Hc.
      by rewrite Hproj in Hc. }
  unfold getOrCreateProgram, mbind, M_bind, gets.
  pose proof (getOrCreateProject_sameCache path w) as Hc.
  destruct (getOrCreateProject path w) as [details wd|e wd] eqn:Hproj;
    simpl in Hc.
  2: { simpl. destruct Hc as [Hp Hi].
       split_and!; [by apply (cacheOk_grow w); [|  |lia]|by rewrite Hp|done]. }
  destruct Hc as [Hpd Hid].
  pose proof (cacheOk_grow _ _ Hok Hpd ltac:(lia)) as Hokd.
  destruct (programs wd !! projectFileDirectory details) as [q|] eqn:Hq; simpl.
  - split_and!; [done|by rewrite Hpd|].
    intros p w1 [= <- <-]. destruct Hokd as [Hown _].
    destruct (Hown _ _ Hq) as [Hdir _].
    split_and!; [by eauto|by rewrite Hdir|by apply Hlater; rewrite Hdir].
  - destruct (newProgram_spec details wd) as (Hp & Hi & Hnew).
    destruct (newProgram details wd) as [p w'|e w'] eqn:Hrun; simpl in *.
    + destruct (Hnew p w' eq_refl) as [Hpid Hdir].
      unfold setProgram, modify. simpl. rewrite <- Hdir in *.
      split_and!.
      * apply (cacheOk_insert wd _ p); simpl; [done|done|done|by rewrite Hp|done].
      * rewrite Hp, <- Hpd. by apply insert_subseteq.
      * intros p' w1 [= <- <-]. simpl.
        split_and!; [by eauto|by rewrite lookup_insert_eq|].
        apply Hlater. simpl. by rewrite lookup_insert_eq.
    + split_and!; [by apply (cacheOk_grow wd); [| |lia]|by rewrite Hp, Hpd|done].
Qed.

Lemma toTSError_reported program path (dg : Diagnostic.t) w :
  stateOf (toTSError program path dg w) = w
  ∧ ∀ e w', toTSError program path dg w = Ok e w' → reported program path dg e.
Proof.
  unfold toTSError, throw.
  destruct (Diagnostic.file dg) as [sf|] eqn:Hfile; [|done].
  destruct (getScriptContent (languageServiceHost program) path)
    as [content|] eqn:Hcontent; [|done].
  split; [done|]. intros e w' [= <- <-].
  exists sf, content. by split_and!.
Qed.

(** [diagnostics.map]: the callback changes no state, and what it returns
    is the record of the diagnostic. *)
Lemma mapM_toTSError program path (ds : list Diagnostic.t) w :
  stateOf (mapM (toTSError program path) ds w) = w
  ∧ ∀ errs w', mapM (toTSError program path) ds w = Ok errs w' →
               Forall2 (reported program path) ds errs.
Proof.
  induction ds as [|dg ds [IHs IHf]].
  { split; [done|]. intros errs w' [= <- <-]. constructor. }
  rewrite mapM_cons.
  destruct (toTSError_reported program path dg w) as [Hs Hrep].
  destruct (toTSError program path dg w) as [e w1|ex w1]; simpl in Hs; subst w1;
    [|done].
  destruct (mapM (toTSError program path) ds w) as [es w1|ex w1];
    simpl in *; [|by split].
  split; [done|]. intros errs w' [= <- <-].
  constructor; [by apply (Hrep e w)|by apply (IHf es w1)].
Qed.

Lemma mapM_toTSError_ok program path (ds : list Diagnostic.t) w :
  is_Some (getScriptContent (languageServiceHost program) path) →
  Forall (λ dg, is_Some (Diagnostic.file dg)) ds →
  ∃ errs, mapM (toTSError program path) ds w = Ok errs w.
Proof.
  intros [content Hcontent] Hds.
  induction Hds as [|dg ds [sf Hfile] _ [es IH]]; [by eexists|].
  rewrite mapM_cons.
  assert (∃ e, toTSError program path dg w = Ok e w) as [e ->].
  { unfold toTSError. rewrite Hfile, Hcontent. by eexists. }
  rewrite IH. by eexists.
Qed.

Lemma getErrorsForFile_unfold path w :
  getErrorsForFile path w
  = match getOrCreateProgram path w with
    | Ok program w1 =>
        let host := languageServiceHost program in
        mapM (toTSError program path) (tieredDiagnostics host path)
          (withRequests
             (match getSyntacticDiagnostics host path with
              | [] => [ReqSyntacticDiagnostics path; ReqSemanticDiagnostics path]
              | _ => [ReqSyntacticDiagnostics path]
              end) w1)
    | Throw e w1 => Throw e w1
    end.
Proof.
  unfold getErrorsForFile, mbind, M_bind, request, tieredDiagnostics,
    withRequests.
  destruct (getOrCreateProgram path w) as [program w1|e w1]; [|done].
  destruct (getSyntacticDiagnostics (languageServiceHost program) path)
    as [|dg ds]; simpl; [|done].
  by rewrite <- app_assoc.
Qed.

(** C5 (amended). Once the program is at hand, [getErrorsForFile] asks
    for the syntactic diagnostics of the file.  When there is at least one, that is
    its only request, and the errors it returns are the records of the
    syntactic diagnostics, one for one; the semantic diagnostics are
    requested, after the syntactic ones, only when the syntactic list is
    empty. *)
Theorem getErrorsForFile_tiering path w program w1 :
  getOrCreateProgram path w = Ok program w1 →
  let host := languageServiceHost program in
  let final := stateOf (getErrorsForFile path w) in
  (getSyntacticDiagnostics host path ≠ [] →
   requests final = requests w1 ++ [ReqSyntacticDiagnostics path]
   ∧ ∀ errs w', getErrorsForFile path w = Ok errs w' →
       Forall2 (reported program path) (getSyntacticDiagnostics host path) errs)
  ∧ (getSyntacticDiagnostics host path = [] →
     requests final
     = requests w1 ++ [ReqSyntacticDiagnostics path; ReqSemanticDiagnostics path]
     ∧ ∀ errs w', getErrorsForFile path w = Ok errs w' →
         Forall2 (reported program path) (getSemanticDiagnostics host path) errs).
Proof.
  intros Hprog host final. subst final.
  rewrite getErrorsForFile_unfold, Hprog. fold host.
  unfold tieredDiagnostics.
  split; intros Hsyn;
    (destruct (getSyntacticDiagnostics host path) as [|dg ds] eqn:Hs; [|];
     try done);
    match goal with |- context [mapM _ ?l ?w0] =>
      destruct (mapM_toTSError program path l w0) as [-> Hrep]
    end; (split; [done|]); intros errs w' Hrun; by apply (Hrep errs w').
Qed.

(** C10. Every error [getErrorsForFile] returns for [path] is the record of
    a reported diagnostic in which only the file name is the diagnostic's
    own: start, end and preview are computed in the script of [path], the
    file asked about, whatever file the diagnostic is attributed to. *)
Theorem getErrorsForFile_positions path w errs w' :
  getErrorsForFile path w = Ok errs w' →
  ∃ program w1,
    getOrCreateProgram path w = Ok program w1
    ∧ let host := languageServiceHost program in
      Forall2
        (λ dg e,
           ∃ content,
             getScriptContent host path = Some content
             ∧ Some (SourceFile.mk (filePath e)) = Diagnostic.file dg
             ∧ startPos e = getPositionFromIndex host path (Diagnostic.start dg)
             ∧ endPos e
               = getPositionFromIndex host path
                   (Diagnostic.length dg + Diagnostic.start dg)
             ∧ preview e
               = JsString.substr content (Diagnostic.start dg)
                   (Diagnostic.length dg))
        (tieredDiagnostics host path) errs.
Proof.
  rewrite getErrorsForFile_unfold.
  destruct (getOrCreateProgram path w) as [program w1|e w1]; [|done].
  simpl. intros Hrun. exists program, w1. split; [done|].
  apply mapM_toTSError in Hrun.
  eapply Forall2_impl; [exact Hrun|].
  intros dg e (sf & content & Hfile & Hcontent & Hpath & Hs & He & _ & Hp).
  exists content. split_and!; try done.
  rewrite Hfile, Hpath. by destruct sf.
Qed.

(** [getErrorsForFileFiltered] keeps the errors whose file has the base
    name of the queried path. *)
Lemma getErrorsForFileFiltered_unfold path w :
  getErrorsForFileFiltered path w
  = match getErrorsForFile path w with
    | Ok errs w' =>
        Ok (List.filter
              (λ e, String.eqb (basename (filePath e)) (basename path)) errs) w'
    | Throw e w' => Throw e w'
    end.
Proof.
  unfold getErrorsForFileFiltered, mbind, M_bind.
  by destruct (getErrorsForFile path w).
Qed.

(** The filter on other base names.  When the script of the queried file
    is hosted and every diagnostic reported for it is attributed to a file
    whose base name differs from the base name of the queried path, [getErrorsForFile]
    returns one error per diagnostic (so a non-empty list when there is a
    diagnostic) and [getErrorsForFileFiltered] returns the empty list. *)
Lemma getErrorsForFileFiltered_other_names path w program w1 :
  getOrCreateProgram path w = Ok program w1 →
  let host := languageServiceHost program in
  is_Some (getScriptContent host path) →
  Forall (λ dg, ∃ sf, Diagnostic.file dg = Some sf
                      ∧ basename (SourceFile.filename sf) ≠ basename path)
    (tieredDiagnostics host path) →
  ∃ errs w',
    getErrorsForFile path w = Ok errs w'
    ∧ Forall2 (reported program path) (tieredDiagnostics host path) errs
    ∧ getErrorsForFileFiltered path w = Ok [] w'.
Proof.
  intros Hprog host Hcontent Hds.
  rewrite getErrorsForFileFiltered_unfold, getErrorsForFile_unfold, Hprog.
  fold host. simpl.
  match goal with |- context [mapM _ _ ?w0] =>
    destruct (mapM_toTSError_ok program path (tieredDiagnostics host path) w0)
      as [errs Hrun]
  end; [done| |].
  { eapply Forall_impl; [exact Hds|]. by intros dg (sf & -> & _). }
  rewrite Hrun. eexists errs, _. split; [reflexivity|].
  apply mapM_toTSError in Hrun as Hrep. split; [done|]. f_equal.
  clear Hrun. induction Hrep as [|dg e ds es Hrep _ IH]; [done|].
  apply Forall_cons in Hds as [(sf & Hfile & Hne) Hds].
  destruct Hrep as (sf' & _ & Hfile' & _ & Hpath & _).
  simpl. rewrite Hpath. assert (sf' = sf) as -> by congruence.
  apply String.eqb_neq in Hne. rewrite Hne. by apply IH.
Qed.

End Manager.

(** ** The properties on concrete projects *)

Section Examples.

Import Demo.

Lemma cyclic_files_hosted f :
  f ∈ files (project (projectFile cyclicProgram)) →
  hasScript (languageServiceHost cyclicProgram) f = true.
Proof. intros ->%list_elem_of_singleton. vm_compute. reflexivity. Qed.

Lemma cyclic_host_listed f :
  hasScript (languageServiceHost cyclicProgram) f = true →
  f ∈ files (project (projectFile cyclicProgram)).
Proof.
  intros [c Hc]%hasScript_true%elem_of_dom.
  assert (fileNameToScript (languageServiceHost cyclicProgram)
          = {["/p/a.ts" := "ref b.ts;import ./c;import fs"]}) as Hmap
    by (vm_compute; reflexivity).
  rewrite Hmap in Hc. apply lookup_singleton_Some in Hc as [<- _]. by left.
Qed.

Lemma cyclic_reachableNew g :
  reachableNew (T := quiet) cyclicDisk cyclicProgram g →
  g ∈ ["/p/a.ts"; "/p/b.ts"; "/p/c.ts"].
Proof.
  intros (f & Hf & Hpath).
  assert (f ∈ ["/p/a.ts"; "/p/b.ts"; "/p/c.ts"]) as Hin
    by (simpl in Hf; set_solver).
  clear Hf.
  induction Hpath as [|f f' g [(content & Hc & Hdecl) _] _ IH]; [done|].
  apply IH. apply elem_of_referencedBy in Hdecl.
  repeat (apply elem_of_cons in Hin as [->|Hin]);
    [| | |by apply elem_of_nil in Hin].
  - assert (content = "ref b.ts;import ./c;import fs") as ->
      by (vm_compute in Hc; congruence).
    replace (referencedBy _ _) with ["/p/b.ts"; "/p/c.ts"] in Hdecl
      by (vm_compute; reflexivity).
    set_solver.
  - assert (content = "ref a.ts") as -> by (vm_compute in Hc; congruence).
    replace (referencedBy _ _) with ["/p/a.ts"] in Hdecl
      by (vm_compute; reflexivity).
    set_solver.
  - assert (content = "var x") as -> by (vm_compute in Hc; congruence).
    replace (referencedBy _ _) with (@nil string) in Hdecl
      by (vm_compute; reflexivity).
    set_solver.
Qed.

Lemma cyclic_resolvable g :
  reachableNew (T := quiet) cyclicDisk cyclicProgram g →
  g ∉ files (project (projectFile cyclicProgram)) →
  is_Some (cyclicDisk !! g).
Proof.
  intros Hin%cyclic_reachableNew _.
  repeat (apply elem_of_cons in Hin as [->|Hin]);
    [by eexists..|by apply elem_of_nil in Hin].
Qed.

(** C3 with two edits: the second is applied first, and the first still
    lands at its offset in the original text. *)
Lemma formatCode_two_edits :
  let changes := [mkTextChange (mkTextSpan 1 1) "XY";
                  mkTextChange (mkTextSpan 3 2) ""] in
  orderedFrom 0 (JsString.len "abcdef") changes = true
  ∧ formatCode "abcdef" changes = "aXYcf"
  ∧ applyFrom "abcdef" 0 changes = "aXYcf".
Proof.
  intros changes.
  assert (orderedFrom 0 (JsString.len "abcdef") changes = true) as Hord
    by reflexivity.
  split; [exact Hord|].
  pose proof (proj2 (proj2 (proj2 formatCode_last_to_first)) _ _ Hord) as Heq.
  split; [rewrite Heq|]; reflexivity.
Defined.

(** C1 on the cyclic project, whose host holds [a.ts] only: [a.ts] and
    [b.ts] refer to each other and [a.ts] imports [./c]; the expansion
    ends with the three files, which are the files that can be reached. *)
Lemma increaseProject_transitive_closure_cyclic :
  ∃ this',
    increaseProjectForReferenceAndImports (T := quiet) cyclicDisk cyclicProgram
    = Ok tt this'
    ∧ files (project (projectFile this'))
      = ["/p/a.ts"; "/p/b.ts"; "/p/c.ts"]
    ∧ ∀ g, g ∈ files (project (projectFile this'))
           ↔ reachable (T := quiet) cyclicDisk cyclicProgram g.
Proof.
  destruct (increaseProject_transitive_closure (T := quiet) cyclicDisk
              cyclicProgram cyclic_files_hosted cyclic_resolvable)
    as (this' & Hrun & _ & Hall).
  exists this'. split; [exact Hrun|].
  split; [|exact (Hall cyclic_host_listed)].
  assert (files (project (projectFile
            (stateOf (increaseProjectForReferenceAndImports (T := quiet)
                        cyclicDisk cyclicProgram))))
          = ["/p/a.ts"; "/p/b.ts"; "/p/c.ts"]) as Hfiles
    by (vm_compute; reflexivity).
  rewrite Hrun in Hfiles. exact Hfiles.
Defined.

(** C1 with a host that holds a file outside the file list: [a.ts]
    refers to [lib.d.ts], which the host has and the list has not; the
    expansion returns the program as it is, and the file that can be
    reached is not in the list. *)
Lemma increaseProject_misses_hosted_file :
  libraryDisk !! "/p/a.ts" = Some "ref lib.d.ts"
  ∧ libraryDisk !! "/p/lib.d.ts" = Some "var y"
  ∧ increaseProjectForReferenceAndImports (T := quiet) libraryDisk
      libraryProgram = Ok tt libraryProgram
  ∧ reachable (T := quiet) libraryDisk libraryProgram "/p/lib.d.ts"
  ∧ "/p/lib.d.ts" ∉ files (project (projectFile libraryProgram)).
Proof.
  split_and!; [reflexivity|reflexivity|vm_compute; reflexivity| |].
  - exists "/p/a.ts". split; [by left|]. apply rtc_once.
    exists "ref lib.d.ts". split; [reflexivity|].
    apply (declares_reference _ _ _ (FileReference.mk "lib.d.ts"));
      [vm_compute; constructor|reflexivity].
  - intros Hin%list_elem_of_singleton. discriminate Hin.
Defined.

(** C2 on the cyclic project: three scans are enough. *)
Lemma expansion_terminates_cyclic :
  (@expansionBound cyclicDisk cyclicProgram ≤ 3)%nat
  ∧ @expansionLoop node utils quiet cyclicDisk 3 cyclicProgram
    = Some (@increaseProjectForReferenceAndImports node utils quiet cyclicDisk
              cyclicProgram).
Proof.
  assert (@expansionBound cyclicDisk cyclicProgram ≤ 3)%nat as Hfuel
    by (vm_compute; lia).
  split; [exact Hfuel|].
  exact (proj1 (@expansion_terminates node utils quiet cyclicDisk cyclicProgram
                  3 Hfuel)).
Defined.

(** C8 on the cyclic project: a second expansion changes nothing. *)
Lemma expansion_idempotent_cyclic :
  ∃ this',
    @increaseProjectForReferenceAndImports node utils quiet cyclicDisk
      cyclicProgram = Ok tt this'
    ∧ @increaseProjectForReferenceAndImports node utils quiet cyclicDisk this'
      = Ok tt this'.
Proof.
  eexists. split; [vm_compute; reflexivity|].
  apply (proj2 (proj2 (@expansion_idempotent node utils quiet cyclicDisk
                         cyclicProgram))).
  vm_compute. reflexivity.
Defined.

(** C7: an import that carries an extension is suffixed all the same. *)
Lemma referencedBy_suffixes_extension :
  extname "./c.ts" = ".ts"
  ∧ referencedBy (T := quiet) "import ./c.ts" "/p/a.ts" = ["/p/c.ts.ts"]
  ∧ referencedBy_spec (T := quiet) "import ./c.ts" "/p/a.ts" = ["/p/c.ts"].
Proof. vm_compute. done. Defined.

(** C4 on the cyclic project: the call for [b.ts], under the same root,
    returns the program built for [a.ts]. *)
Lemma getOrCreateProgram_cache_same_root :
  cacheOk (emptyWorld cyclicDisk)
  ∧ ∃ p w1 w3,
      @getOrCreateProgram node utils quiet hostModule tsConfig "/p/a.ts"
        (emptyWorld cyclicDisk) = Ok p w1
      ∧ @getOrCreateProgram node utils quiet hostModule tsConfig "/p/b.ts" w1
        = Ok p w3
      ∧ sameCache w1 w3.
Proof.
  assert (cacheOk (emptyWorld cyclicDisk)) as Hok.
  { split; simpl; [intros dir p Hp|intros dir1 dir2 p1 p2 Hp];
      by rewrite lookup_empty in Hp. }
  split; [exact Hok|].
  destruct (@getOrCreateProgram_cache node utils quiet hostModule tsConfig
              "/p/a.ts" (emptyWorld cyclicDisk) Hok) as (_ & _ & Hcall).
  destruct (@getOrCreateProgram node utils quiet hostModule tsConfig "/p/a.ts"
              (emptyWorld cyclicDisk)) as [p w1|e w1] eqn:Hrun;
    [|by vm_compute in Hrun].
  destruct (Hcall p w1 eq_refl) as ((details & wd & Hproj & Hdir) & _ & Hlater).
  injection Hproj as <- <-. simpl in Hdir.
  destruct (Hlater w1 "/p/b.ts" (mkDetails "/p" (mkProject ["/p/b.ts"])) w1)
    as (w3 & Hsecond & Hsame); [reflexivity|reflexivity|by rewrite Hdir|].
  exists p, w1, w3. exact (conj eq_refl (conj Hsecond Hsame)).
Defined.

(** C5 with an engine that has a syntactic and a semantic diagnostic for
    every file: only the syntactic ones are requested. *)
Lemma getErrorsForFile_tiering_noisy :
  ∃ program w1,
    @getOrCreateProgram node utils noisy hostModule tsConfig "/p/a.ts"
      (emptyWorld cyclicDisk) = Ok program w1
    ∧ @getSyntacticDiagnostics noisy (languageServiceHost program) "/p/a.ts" ≠ []
    ∧ requests (stateOf (@getErrorsForFile node utils noisy hostModule tsConfig
                           "/p/a.ts" (emptyWorld cyclicDisk)))
      = requests w1 ++ [ReqSyntacticDiagnostics "/p/a.ts"].
Proof.
  eexists _, _. split; [vm_compute; reflexivity|].
  split; [intros Hnil; discriminate Hnil|].
  refine (proj1 (proj1 (@getErrorsForFile_tiering node utils noisy hostModule
                          tsConfig "/p/a.ts" (emptyWorld cyclicDisk) _ _ _) _)).
  - vm_compute. reflexivity.
  - intros Hnil; discriminate Hnil.
Defined.

(** C5 on a first call: the program of [c.ts] is not cached, its
    construction emits [c.ts], the emit fails and [emitFile] asks for the
    semantic diagnostics of [c.ts], though [c.ts] has a syntactic
    diagnostic; the syntactic request of [getErrorsForFile] comes last. *)
Lemma getErrorsForFile_first_call_requests_semantic :
  let path := "/p/c.ts" in
  let w := emptyWorld cyclicDisk in
  requests w = []
  ∧ (∃ program w1,
       getOrCreateProgram (T := noisyFailing) path w = Ok program w1
       ∧ getSyntacticDiagnostics (TypeScript := noisyFailing)
           (languageServiceHost program) path
         = [errorIn path "';' expected."])
  ∧ (∃ e w', getErrorsForFile (T := noisyFailing) path w = Ok [e] w'
             ∧ message e = "';' expected.")
  ∧ requests (stateOf (getErrorsForFile (T := noisyFailing) path w))
    = [ReqEmitOutput path; ReqCompilerOptionsDiagnostics;
       ReqSyntacticDiagnostics path; ReqSemanticDiagnostics path;
       ReqSyntacticDiagnostics path].
Proof.
  split; [reflexivity|]. split; [|split].
  - eexists _, _. split; vm_compute; reflexivity.
  - eexists _, _. split; vm_compute; reflexivity.
  - vm_compute. reflexivity.
Defined.

(** C6. The comment above [getErrorsForFileFiltered] says the list is
    only for the queried file, not for a file it references or imports.
    Here [index.ts] imports [lib/index.ts], which has a syntax error
    attributed to its own path, and the language service reports that
    error for [index.ts] as well: the two paths differ and share a base
    name, the filter compares base names, and the filtered list of
    [index.ts] holds the error of [lib/index.ts]. *)
Theorem getErrorsForFileFiltered_same_basename :
  let A := "/p/index.ts" in
  let B := "/p/lib/index.ts" in
  let w := emptyWorld (importerDisk A B "./lib/index") in
  (∃ program w1,
     getOrCreateProgram (T := importerEngine A B) A w = Ok program w1
     ∧ getScriptContent (languageServiceHost program) A
       = Some "import ./lib/index"
     ∧ referencedBy (T := importerEngine A B) "import ./lib/index" A = [B]
     ∧ getSyntacticDiagnostics (TypeScript := importerEngine A B)
         (languageServiceHost program) B
       = [errorIn B "';' expected."])
  ∧ basename A = basename B
  ∧ ∃ e w',
      getErrorsForFileFiltered (T := importerEngine A B) A w = Ok [e] w'
      ∧ filePath e = B
      ∧ filePath e ≠ A.
Proof.
  split; [|split].
  - eexists _, _. split; [vm_compute; reflexivity|].
    split; [vm_compute; reflexivity|].
    split; vm_compute; reflexivity.
  - vm_compute. reflexivity.
  - eexists _, _. split; [vm_compute; reflexivity|].
    split; [vm_compute; reflexivity|].
    vm_compute. intros Heq. discriminate Heq.
Qed.

(** The filter where the names differ: [main.ts] imports [util.ts]; the
    unfiltered list has the error of [util.ts], the filtered list is
    empty. *)
Lemma getErrorsForFileFiltered_other_names_main :
  let A := "/p/main.ts" in
  let B := "/p/util.ts" in
  let w := emptyWorld (importerDisk A B "./util") in
  ∃ errs w',
    getErrorsForFile (T := importerEngine A B) A w = Ok errs w'
    ∧ List.length errs = 1%nat
    ∧ getErrorsForFileFiltered (T := importerEngine A B) A w = Ok [] w'.
Proof.
  intros A B w.
  destruct (getOrCreateProgram (T := importerEngine A B) A w)
    as [program w1|e w1] eqn:Hprog; [|by vm_compute in Hprog].
  assert (languageServiceHost program
          = mkHost (list_to_map [(A, "import ./util"); (B, "oops")])) as Hhost.
  { vm_compute in Hprog. injection Hprog as <- _. vm_compute. reflexivity. }
  destruct (getErrorsForFileFiltered_other_names (T := importerEngine A B)
              A w program w1 Hprog) as (errs & w' & Hrun & Hrep & Hfilt).
  - rewrite Hhost. vm_compute. eexists. reflexivity.
  - rewrite Hhost.
    change (tieredDiagnostics _ _) with [errorIn B "';' expected."].
    constructor; [|constructor].
    eexists. split; [reflexivity|]. vm_compute. intros Heq. discriminate Heq.
  - exists errs, w'. split; [exact Hrun|]. split; [|exact Hfilt].
    apply Forall2_length in Hrep. rewrite <- Hrep, Hhost. reflexivity.
Defined.

(** C9 with a failed emit of two outputs, the second on a read-only path:
    the first output is on disk when the call throws. *)
Lemma emitFile_partial_write :
  let path := "/p/a.ts" in
  let pre := [OutputFile.mk "/p/a.ts.js" "js"] in
  let w := emptyWorld cyclicDisk in
  ts.emitOutputStatus (emitTwo path) = EmitErrorsEncountered
  ∧ ∃ w',
      emitFile (T := failing) cyclicProgram path w
      = Throw (IOError "/readonly/a.ts.map") w'
      ∧ disk w' = writeOutputs pre (disk w)
      ∧ disk w' !! "/p/a.ts.js" = Some "js".
Proof.
  intros path pre w. split; [reflexivity|].
  assert (writable (disk w) pre = true) as Hpre by (vm_compute; reflexivity).
  assert (canWrite (writeOutputs pre (disk w)) "/readonly/a.ts.map" = false)
    as Hlast by (vm_compute; reflexivity).
  destruct (proj2 (emitFile_writes_outputs (T := failing) cyclicProgram path w
                     pre [OutputFile.mk "/readonly/a.ts.map" "map"]
                     eq_refl Hpre)
              (OutputFile.mk "/readonly/a.ts.map" "map") [] eq_refl Hlast)
    as (w' & Hrun & Hdisk).
  exists w'. split; [exact Hrun|]. split; [exact Hdisk|].
  rewrite Hdisk. vm_compute. reflexivity.
Defined.

(** C10: the error of [util.ts], reported for [main.ts], previews the first
    characters of [main.ts]. *)
Lemma getErrorsForFile_positions_cross_file :
  let A := "/p/main.ts" in
  let B := "/p/util.ts" in
  let w := emptyWorld (importerDisk A B "./util") in
  ∃ e w' program w1,
    getErrorsForFile (T := importerEngine A B) A w = Ok [e] w'
    ∧ filePath e = B
    ∧ preview e = "impo"
    ∧ getOrCreateProgram (T := importerEngine A B) A w = Ok program w1
    ∧ getScriptContent (languageServiceHost program) B = Some "oops".
Proof.
  intros A B w.
  assert (∃ e w', getErrorsForFile (T := importerEngine A B) A w = Ok [e] w'
                  ∧ filePath e = B ∧ preview e = "impo")
    as (e & w' & Hrun & Hfile & Hpreview)
    by (eexists _, _; split; [vm_compute; reflexivity|split; reflexivity]).
  destruct (getErrorsForFile_positions (T := importerEngine A B) A w [e] w' Hrun)
    as (program & w1 & Hprog & _).
  exists e, w', program, w1. split_and!; [exact Hrun|exact Hfile|exact Hpreview|exact Hprog|].
  vm_compute in Hprog. injection Hprog as <- _. vm_compute. reflexivity.
Defined.

End Examples.

(** * Further properties of the code *)

(** ** Formatting *)

Lemma formatCode_foldr (orig : string) (changes : list TextChange) :
  formatCode orig changes
  = fold_right (λ change result, spliceChange result change) orig changes.
Proof.
  unfold formatCode. rewrite formatCode_from_take by lia.
  by rewrite firstn_all.
Qed.

Lemma formatCode_applyFrom (orig : string) (changes : list TextChange) :
  orderedFrom 0 (JsString.len orig) changes = true →
  formatCode orig changes = applyFrom orig 0 changes.
Proof.
  intros Hord. rewrite formatCode_foldr.
  destruct (fold_splice_ordered orig changes 0 ltac:(lia) Hord)
    as (Hlen & _ & <-).
  rewrite slice_from by (split; [lia|exact Hlen]).
  simpl. rewrite Nat.sub_0_r. symmetry. apply substring_all. lia.
Qed.

(** X1. Formatting with two lists of edits in a row is formatting with the
    second list first and with the first list on the outcome. *)
Theorem formatCode_app (orig : string) (first second : list TextChange) :
  formatCode orig (first ++ second)
  = formatCode (formatCode orig second) first.
Proof. by rewrite !formatCode_foldr, foldr_app. Qed.

Lemma len_slice_between (s : string) (a b : Z) :
  0 ≤ a ≤ b → b ≤ JsString.len s →
  JsString.len (JsString.slice s a (Some b)) = b - a.
Proof.
  intros Ha Hb. rewrite slice_between by done. unfold JsString.len in *.
  rewrite substring_length. lia.
Qed.

Lemma len_slice_from (s : string) (a : Z) :
  0 ≤ a ≤ JsString.len s →
  JsString.len (JsString.slice s a None) = JsString.len s - a.
Proof.
  intros Ha. rewrite slice_from by done. unfold JsString.len in *.
  rewrite substring_length. lia.
Qed.

Lemma len_applyFrom (orig : string) (changes : list TextChange) (pos : Z) :
  0 ≤ pos →
  orderedFrom pos (JsString.len orig) changes = true →
  JsString.len (applyFrom orig pos changes)
  = JsString.len orig - pos + lengthDelta changes.
Proof.
  revert pos. induction changes as [|c cs IH]; intros pos Hpos Hord.
  { apply Z.leb_le in Hord. simpl. rewrite len_slice_from by lia. lia. }
  apply orderedFrom_cons in Hord as (Hstart & Hlen & Hord).
  pose proof (orderedFrom_le _ _ _ Hord) as Hend.
  cbn [applyFrom lengthDelta fold_right].
  rewrite !len_append, IH by (done || lia).
  rewrite len_slice_between by lia. fold (lengthDelta cs). lia.
Qed.

(** X2. For edits that are ordered and do not overlap, the formatted text
    is as long as the original plus, for each edit, the length of its new
    text minus the length of its span. *)
Theorem formatCode_length (orig : string) (changes : list TextChange) :
  orderedFrom 0 (JsString.len orig) changes = true →
  JsString.len (formatCode orig changes)
  = JsString.len orig + lengthDelta changes.
Proof.
  intros Hord. rewrite formatCode_applyFrom by done.
  rewrite len_applyFrom by (done || lia). lia.
Qed.

Lemma substring_split (s : string) (n m k : nat) :
  substring n m s +:+ substring (n + m) k s = substring n (m + k) s.
Proof.
  revert n m k. induction s as [|c s IH]; intros n m k.
  - destruct n, m, k; done.
  - destruct n as [|n].
    + destruct m as [|m]; [done|].
      change (substring 0 (S m) (String c s))
        with (String c (substring 0 m s)).
      change (substring (0 + S m) k (String c s))
        with (substring (0 + m) k s).
      change (substring 0 (S m + k) (String c s))
        with (String c (substring 0 (m + k) s)).
      change (String c (substring 0 m s) +:+ substring (0 + m) k s)
        with (String c (substring 0 m s +:+ substring (0 + m) k s)).
      by rewrite IH.
    + change (substring (S n) m (String c s)) with (substring n m s).
      change (substring (S n + m) k (String c s))
        with (substring (n + m) k s).
      change (substring (S n) (m + k) (String c s))
        with (substring n (m + k) s).
      apply IH.
Qed.

Lemma slice_split_from (s : string) (a b : Z) :
  0 ≤ a ≤ b → b ≤ JsString.len s →
  JsString.slice s a (Some b) +:+ JsString.slice s b None
  = JsString.slice s a None.
Proof.
  intros Ha Hb. rewrite slice_between, !slice_from by lia.
  unfold JsString.len in Hb.
  replace (Z.to_nat b) with (Z.to_nat a + (Z.to_nat b - Z.to_nat a))%nat
    at 2 3 by lia.
  rewrite substring_split. f_equal. lia.
Qed.

Lemma slice_split_between (s : string) (a b c : Z) :
  0 ≤ a ≤ b → b ≤ c → c ≤ JsString.len s →
  JsString.slice s a (Some b) +:+ JsString.slice s b (Some c)
  = JsString.slice s a (Some c).
Proof.
  intros Ha Hb Hc. rewrite !slice_between by lia.
  replace (Z.to_nat b) with (Z.to_nat a + (Z.to_nat b - Z.to_nat a))%nat
    at 2 by lia.
  rewrite substring_split. f_equal. lia.
Qed.

Lemma append_assoc (x y z : string) : (x +:+ y) +:+ z = x +:+ (y +:+ z).
Proof.
  induction x as [|c x IH]; [done|].
  change (String c ((x +:+ y) +:+ z) = String c (x +:+ (y +:+ z))).
  by rewrite IH.
Qed.


Lemma slice_all (s : string) : JsString.slice s 0 None = s.
Proof.
  rewrite slice_from by (pose proof (len_nonneg s); lia).
  simpl. rewrite Nat.sub_0_r. apply substring_all. lia.
Qed.

Lemma applyFrom_keepsText (orig : string) (changes : list TextChange)
    (pos : Z) :
  0 ≤ pos →
  orderedFrom pos (JsString.len orig) changes = true →
  Forall (keepsText orig) changes →
  applyFrom orig pos changes = JsString.slice orig pos None.
Proof.
  revert pos. induction changes as [|c cs IH]; intros pos Hpos Hord Hkeep;
    [done|].
  apply orderedFrom_cons in Hord as (Hstart & Hlen & Hord).
  pose proof (orderedFrom_le _ _ _ Hord) as Hend.
  apply Forall_cons in Hkeep as [Hc Hkeep].
  cbn [applyFrom]. rewrite IH by (done || lia). rewrite Hc.
  rewrite (slice_split_from orig (spanStart (span c))) by lia.
  apply slice_split_from; lia.
Qed.

(** X3. Edits that are ordered, do not overlap and each put back the very
    text of their span leave the text as it is. *)
Theorem formatCode_keepsText (orig : string) (changes : list TextChange) :
  orderedFrom 0 (JsString.len orig) changes = true →
  Forall (keepsText orig) changes →
  formatCode orig changes = orig.
Proof.
  intros Hord Hkeep. rewrite formatCode_applyFrom by done.
  rewrite applyFrom_keepsText by (done || lia). apply slice_all.
Qed.

Lemma substring_none (s : string) (n : nat) : substring n 0 s = "".
Proof.
  revert n. induction s as [|c s IH]; intros [|n]; try done. apply IH.
Qed.

Lemma append_nil_r (x : string) : x +:+ "" = x.
Proof.
  induction x as [|c x IH]; [done|].
  change (String c (x +:+ "") = String c x). by rewrite IH.
Qed.

(** X4. An edit that starts at or behind the end of the text replaces
    nothing: its new text is appended. *)
Theorem formatCode_edit_past_end (orig : string) (change : TextChange) :
  JsString.len orig ≤ spanStart (span change) →
  0 ≤ spanLength (span change) →
  formatCode orig [change] = orig +:+ newText change.
Proof.
  intros Hstart Hlen. pose proof (len_nonneg orig) as Hnn.
  assert (∀ i, JsString.len orig ≤ i →
               JsString.clampIndex (JsString.len orig) i = JsString.len orig)
    as Hpast
    by (intros i Hi; unfold JsString.clampIndex;
        destruct (Z.ltb_spec i 0); lia).
  rewrite formatCode_foldr. cbn [fold_right]. rewrite spliceChange_eq.
  assert (JsString.slice orig 0 (Some (spanStart (span change))) = orig)
    as ->.
  { unfold JsString.slice.
    rewrite (Hpast (spanStart (span change))), (clampIndex_in_range _ 0)
      by lia.
    apply substring_all. unfold JsString.len. lia. }
  assert (JsString.slice orig
            (spanStart (span change) + spanLength (span change)) None = "")
    as ->.
  { unfold JsString.slice. rewrite Hpast by lia.
    replace (Z.to_nat (Z.max (JsString.len orig - JsString.len orig) 0))
      with 0%nat by lia.
    apply substring_none. }
  by rewrite append_nil_r.
Qed.

Section FormatDocumentProperties.

Context {F : Formatting}.

Implicit Types (w : World) (this : Program) (path : string).

(** X5. When the script of the file is hosted and the edits of the
    language service are ordered and do not overlap, [formatDocument] and
    [formatDocumentRange] return that text with every span replaced at its
    original offsets, and all they do to the state is to print one line:
    nothing is written to disk, and the cache stays as it is. *)
Theorem formatDocument_formats this path (first last : Z) w (orig : string) :
  getScriptContent (languageServiceHost this) path = Some orig →
  let host := languageServiceHost this in
  let whole := getFormattingEditsForDocument host path defaultFormatCodeOptions in
  let part :=
    getFormattingEditsForRange host path first last defaultFormatCodeOptions in
  (orderedFrom 0 (JsString.len orig) whole = true →
   ∃ entry,
     formatDocument this path w
     = Ok (Some (applyFrom orig 0 whole))
         (mkWorld (disk w) (console w ++ [entry]) (requests w) (programs w)
            (instances w)))
  ∧ (orderedFrom 0 (JsString.len orig) part = true →
     ∃ entry,
       formatDocumentRange this path first last w
       = Ok (Some (applyFrom orig 0 part))
           (mkWorld (disk w) (console w ++ [entry]) (requests w) (programs w)
              (instances w))).
Proof.
  intros Hcontent host whole part. subst host whole part.
  unfold formatDocument, formatDocumentRange, formatCodeOf, mbind, M_bind,
    consoleLog, modify. rewrite Hcontent. simpl.
  split; intros Hord; rewrite (formatCode_applyFrom _ _ Hord);
    eexists; reflexivity.
Qed.

(** X6. When the file has no script in the host, [formatDocument] returns
    [null] if the language service has no edit, and throws a [TypeError],
    the state untouched, if it has one. *)
Theorem formatDocument_missing_script this path w :
  getScriptContent (languageServiceHost this) path = None →
  let changes :=
    getFormattingEditsForDocument (languageServiceHost this) path
      defaultFormatCodeOptions in
  (changes = [] →
   ∃ w', formatDocument this path w = Ok None w' ∧ disk w' = disk w)
  ∧ (changes ≠ [] →
     ∃ what, formatDocument this path w = Throw (TypeError what) w).
Proof.
  intros Hcontent changes.
  unfold formatDocument, formatCodeOf, mbind, M_bind, consoleLog, modify,
    throw.
  fold changes. rewrite Hcontent.
  split; intros Hc.
  - rewrite Hc. simpl. eexists. split; reflexivity.
  - destruct changes as [|c cs]; [done|]. by eexists.
Qed.

End FormatDocumentProperties.

(** ** Closure expansion *)

Section ExpansionProperties.

Context {N : Node} {U : Utils} {T : TypeScript}.

Implicit Types (d : Disk) (this : Program) (file : string).

Abbreviation hostMap this := (fileNameToScript (languageServiceHost this)).
Abbreviation fileList this := (files (project (projectFile this))).

Lemma union_disk_trans (m0 m1 m2 d : gmap string string) :
  m0 ⊆ m1 → m1 ⊆ m0 ∪ d → m2 ⊆ m1 ∪ d → m2 ⊆ m0 ∪ d.
Proof.
  intros H01 H1 H2. etrans; [exact H2|].
  apply map_subseteq_spec. intros i c.
  rewrite lookup_union_Some_raw. intros [Hi|[Hi Hd]].
  - by apply (lookup_weaken _ _ _ _ Hi H1).
  - rewrite lookup_union_Some_raw. right. split; [|done].
    destruct (m0 !! i) as [c'|] eqn:H0i; [|done].
    by rewrite (lookup_weaken _ _ _ _ H0i H01) in Hi.
Qed.

(** What an expansion that returns has done to the program. *)
Lemma expansionLoop_grows d (fuel : nat) this this' :
  expansionLoop d fuel this = Some (Ok tt this') →
  fileList this `prefix_of` fileList this'
  ∧ hostMap this ⊆ hostMap this'
  ∧ hostMap this' ⊆ hostMap this ∪ d
  ∧ (NoDup (fileList this) →
     (∀ f, f ∈ fileList this → f ∈ dom (hostMap this)) →
     NoDup (fileList this')
     ∧ ∀ f, f ∈ fileList this' → f ∈ dom (hostMap this')).
Proof.
  revert this. induction fuel as [|fuel IH]; intros this Hr; [done|].
  simpl in Hr.
  destruct (scanForMore d this) as [more this1|e this1] eqn:Hs;
    [|by destruct e].
  destruct (scanForMore_Ok _ _ _ _ Hs)
    as (paths & _ & _ & _ & [Hfiles _ _ Hg Hfd Hdom _ Hmore Hnd Hnil]).
  destruct more as [|x more].
  { injection Hr as <-. rewrite (Hnil eq_refl).
    split_and!; [done|done|apply map_union_subseteq_l|done]. }
  destruct (IH _ Hr) as (Hpre & Hg' & Hfd' & Hwell).
  split_and!.
  - etrans; [|exact Hpre]. rewrite Hfiles. by apply prefix_app_r.
  - by etrans.
  - by apply (union_disk_trans _ (hostMap this1)).
  - intros Hnd0 Hhosted. apply Hwell.
    + rewrite Hfiles. apply NoDup_app. split_and!; [done| |done].
      intros f Hf Hin. destruct (Hmore f Hin) as (_ & Hn & _).
      by apply Hn, Hhosted.
    + intros f. rewrite Hfiles, Hdom.
      intros [Hf|Hf]%elem_of_app; [|set_solver].
      apply elem_of_union_l. by apply Hhosted.
Qed.

Lemma increaseProject_loop d this (r : Res Program unit) :
  increaseProjectForReferenceAndImports d this = r →
  expansionLoop d (expansionBound d this) this = Some r.
Proof.
  intros <-.
  destruct (expansionLoop_terminates d (expansionBound d this) this) as [r Hr];
    [unfold expansionBound; lia|].
  by rewrite Hr, (expansionLoop_increase _ _ _ _ Hr).
Qed.

(** X7. An expansion that returns has only added: the files the project
    had are still the front of its file list, in their order; the scripts
    the host had are unchanged; each script that is new has the content of
    the file on disk; and a file list that was duplicate-free and hosted
    stays so. *)
Theorem increaseProject_grows d this this' :
  increaseProjectForReferenceAndImports d this = Ok tt this' →
  fileList this `prefix_of` fileList this'
  ∧ hostMap this ⊆ hostMap this'
  ∧ (∀ f content,
       hostMap this' !! f = Some content → hostMap this !! f = None →
       d !! f = Some content)
  ∧ (NoDup (fileList this) →
     (∀ f, f ∈ fileList this → f ∈ dom (hostMap this)) →
     NoDup (fileList this')
     ∧ ∀ f, f ∈ fileList this' → f ∈ dom (hostMap this')).
Proof.
  intros Hrun%increaseProject_loop.
  destruct (expansionLoop_grows _ _ _ _ Hrun) as (Hpre & Hg & Hfd & Hwell).
  split_and!; [done|done| |done].
  intros f content Hf Hnone.
  apply (lookup_weaken _ _ _ _ Hf) in Hfd.
  apply lookup_union_Some_raw in Hfd as [Hin|[_ Hd]]; [congruence|done].
Qed.

(** X8. In the program an expansion returns, every file of the list has
    a script in the host, and so has every path that the text of a file
    of the list refers to, by reference or relative import, whatever the
    program was at the start. *)
Theorem increaseProject_closed d this this' :
  increaseProjectForReferenceAndImports d this = Ok tt this' →
  (∀ f, f ∈ fileList this' →
        hasScript (languageServiceHost this') f = true)
  ∧ ∀ f content g,
      f ∈ fileList this' →
      getScriptContent (languageServiceHost this') f = Some content →
      g ∈ referencedBy content f →
      hasScript (languageServiceHost this') g = true.
Proof.
  intros Hrun%increaseProject_loop.
  apply expansionLoop_exit in Hrun.
  destruct (scan_nil _ _ _ Hrun) as (_ & Hhosted & Hall).
  split.
  - intros f Hf. by apply hasScript_true, Hhosted.
  - intros f content g Hf Hc Hg. by apply hasScript_true, (Hall f content).
Qed.

Lemma filterM_willNeedMoreAnalysis_exn d (l : list string) this e this' :
  filterM (willNeedMoreAnalysis d) l this = Throw e this' →
  ∃ f, e = IOError f ∧ f ∈ l ∧ f ∉ dom (hostMap this) ∧ d !! f = None.
Proof.
  revert this. induction l as [|x l IH]; intros this Hrun; [done|].
  rewrite filterM_cons in Hrun.
  destruct (hasScript (languageServiceHost this) x) eqn:Hk.
  - rewrite (willNeedMoreAnalysis_known _ _ _ Hk) in Hrun.
    destruct (filterM _ l this) as [|e' s2] eqn:Hl; [done|].
    injection Hrun as -> ->.
    destruct (IH _ Hl) as (f & He & Hin & Hn & Hd).
    exists f. split_and!; [done|by apply elem_of_cons; right|done|done].
  - apply hasScript_false in Hk.
    destruct (d !! x) as [content|] eqn:Hd.
    + rewrite (willNeedMoreAnalysis_new _ _ _ content) in Hrun
        by (by rewrite ?hasScript_false).
      destruct (filterM _ l _) as [|e' s2] eqn:Hl; [done|].
      injection Hrun as -> ->.
      destruct (IH _ Hl) as (f & He & Hin & Hn & Hf).
      exists f. simpl in Hn. rewrite dom_insert_L in Hn.
      split_and!; [done|by apply elem_of_cons; right|set_solver|done].
    + rewrite willNeedMoreAnalysis_missing in Hrun
        by (by rewrite ?hasScript_false).
      injection Hrun as <- <-.
      exists x. split_and!; [done|by left|by apply not_elem_of_dom|done].
Qed.

(** A scan fails before it reads the disk exactly when a listed file has
    no script; the program is then as it was. *)
Lemma scanForMore_unhosted d this f :
  f ∈ fileList this →
  hasScript (languageServiceHost this) f = false →
  scanForMore d this = Throw (TypeError "preProcessFile") this.
Proof.
  intros Hf Hk%hasScript_false. rewrite scanForMore_unfold.
  pose proof (getReferencedOrImportedFiles_spec (fileList this) this) as Hs.
  destruct (getReferencedOrImportedFiles (fileList this) this)
    as [paths this1|e this1].
  - destruct Hs as (_ & Hhosted & _).
    destruct (Hhosted f Hf) as [content Hcontent].
    unfold getScriptContent in Hcontent. congruence.
  - by destruct Hs as (_ & -> & _).
Qed.

Lemma scanForMore_exn d this e this' :
  scanForMore d this = Throw e this' →
  (∃ f, e = IOError f ∧ f ∉ dom (hostMap this) ∧ d !! f = None)
  ∨ (e = TypeError "preProcessFile" ∧ this' = this
     ∧ ∃ f, f ∈ fileList this ∧ hostMap this !! f = None).
Proof.
  rewrite scanForMore_unfold.
  pose proof (getReferencedOrImportedFiles_spec (fileList this) this) as Hs.
  destruct (getReferencedOrImportedFiles (fileList this) this)
    as [paths this1|e1 this1].
  - intros (f & He & _ & Hn & Hd)%filterM_willNeedMoreAnalysis_exn.
    left. by exists f.
  - destruct Hs as (_ & -> & f & Hf & Hnone). intros [= <- <-].
    right. split_and!; [done|done|]. by exists f.
Qed.

Lemma expansionLoop_exn d (fuel : nat) this e this' :
  expansionLoop d fuel this = Some (Throw e this') →
  (∃ f, e = IOError f ∧ f ∉ dom (hostMap this) ∧ d !! f = None)
  ∨ (e = TypeError "preProcessFile" ∧ this' = this
     ∧ ∃ f, f ∈ fileList this ∧ hostMap this !! f = None).
Proof.
  revert this. induction fuel as [|fuel IH]; intros this Hr; [done|].
  simpl in Hr.
  destruct (scanForMore d this) as [[|x more] this1|e1 this1] eqn:Hs; [done| |].
  - apply scanForMore_Ok in Hs
      as (paths & _ & Hhosted & _ & [Hfiles _ _ Hg _ Hdom _ _ _ _]).
    destruct (IH _ Hr) as [(f & He & Hn & Hd)|(_ & _ & f & Hf & Hnone)].
    + left. exists f. split_and!; [done| |done].
      intros Hin. apply Hn. by apply (subseteq_dom _ _ Hg).
    + exfalso. apply not_elem_of_dom in Hnone. apply Hnone.
      rewrite Hdom. rewrite Hfiles in Hf.
      apply elem_of_app in Hf as [Hf|Hf]; [|set_solver].
      apply elem_of_union_l, elem_of_dom. by apply Hhosted.
  - injection Hr as -> ->. by apply scanForMore_exn.
Qed.

(** X9. An expansion fails in two ways only.  It throws the [TypeError]
    of [preProcessFile] when a file of the list has no script in the host,
    and it does so whenever there is such a file, leaving the program as
    it was.  Otherwise it throws the read error of a file that is neither
    hosted nor on disk, and it does so when every file of the list is
    hosted and one of them refers to such a file. *)
Theorem increaseProject_failure d this :
  (∀ e this',
     increaseProjectForReferenceAndImports d this = Throw e this' →
     (∃ f, e = IOError f
           ∧ hasScript (languageServiceHost this) f = false
           ∧ d !! f = None)
     ∨ (e = TypeError "preProcessFile" ∧ this' = this
        ∧ ∃ f, f ∈ fileList this
               ∧ hasScript (languageServiceHost this) f = false))
  ∧ (∀ f,
       f ∈ fileList this →
       hasScript (languageServiceHost this) f = false →
       increaseProjectForReferenceAndImports d this
       = Throw (TypeError "preProcessFile") this)
  ∧ ((∀ f, f ∈ fileList this →
           hasScript (languageServiceHost this) f = true) →
     ∀ f content g,
       f ∈ fileList this →
       getScriptContent (languageServiceHost this) f = Some content →
       g ∈ referencedBy content f →
       hasScript (languageServiceHost this) g = false →
       d !! g = None →
       ∃ f' this',
         increaseProjectForReferenceAndImports d this
         = Throw (IOError f') this').
Proof.
  split_and!.
  - intros e this' Hrun%increaseProject_loop.
    apply expansionLoop_exn in Hrun
      as [(f & He & Hn & Hd)|(He & Hthis & f & Hf & Hnone)].
    + left. exists f. split_and!; [done| |done].
      apply hasScript_false. by apply not_elem_of_dom.
    + right. split_and!; [done|done|]. exists f. split; [done|].
      by apply hasScript_false.
  - intros f Hf Hk. apply (expansionLoop_increase d 1). simpl.
    by rewrite (scanForMore_unhosted d this f Hf Hk).
  - intros Hhosted f content g Hf Hc Hg Hk Hd.
    destruct (scanForMore d this) as [more this1|e this1] eqn:Hs.
    + apply scanForMore_Ok in Hs
        as (paths & _ & _ & Hpaths & [_ _ _ _ _ Hdom Hall Hmore _ _]).
      assert (g ∈ paths) as Hin by (apply Hpaths; by exists f, content).
      specialize (Hall g Hin). rewrite Hdom in Hall.
      apply hasScript_false in Hk.
      apply elem_of_union in Hall as [Hg'%elem_of_dom|Hg'%elem_of_list_to_set].
      * rewrite Hk in Hg'. by destruct Hg'.
      * destruct (Hmore g Hg') as (_ & _ & [c Hc']%elem_of_dom). congruence.
    + pose proof Hs as Hexn.
      apply scanForMore_exn in Hexn
        as [(f' & -> & _)|(_ & _ & f' & Hf' & Hnone)].
      * exists f', this1. apply (expansionLoop_increase d 1). simpl.
        by rewrite Hs.
      * apply hasScript_false in Hnone. by rewrite Hhosted in Hnone.
Qed.

End ExpansionProperties.

(** ** Emit and construction *)

Section ManagerProperties.

Context {N : Node} {U : Utils} {T : TypeScript} {L : HostModule}
  {C : TsConfig}.

Implicit Types (w : World) (this program : Program) (path : string).

Lemma forEach_cons {S A} (f : A → M S unit) (x : A) (l : list A) (s : S) :
  forEach f (x :: l) s
  = match f x s with
    | Ok _ s1 => forEach f l s1
    | Throw e s1 => Throw e s1
    end.
Proof. reflexivity. Qed.

Lemma diagnosticLines_cons (dg : Diagnostic.t) (ds : list Diagnostic.t) :
  diagnosticLines (dg :: ds)
  = match Diagnostic.file dg with
    | Some sf =>
        LogDiagnosticLine (SourceFile.filename sf)
          (line (getLineAndCharacterFromPosition sf (Diagnostic.start dg)))
          (character (getLineAndCharacterFromPosition sf (Diagnostic.start dg)))
          (Diagnostic.messageText dg) :: diagnosticLines ds
    | None => diagnosticLines ds
    end.
Proof.
  unfold diagnosticLines.
  destruct (Diagnostic.file dg) eqn:Hfile; simpl; rewrite Hfile; reflexivity.
Qed.

Lemma forEach_logDiagnostic_lines (ds : list Diagnostic.t) w :
  forEach logDiagnostic ds w
  = Ok tt (mkWorld (disk w) (console w ++ diagnosticLines ds) (requests w)
             (programs w) (instances w)).
Proof.
  revert w. induction ds as [|dg ds IH]; intros w.
  { simpl. rewrite app_nil_r. by destruct w. }
  rewrite forEach_cons, diagnosticLines_cons.
  unfold logDiagnostic at 1.
  destruct (Diagnostic.file dg) as [sf|].
  - unfold consoleLog, modify. rewrite IH. simpl. by rewrite <- app_assoc.
  - unfold mret, M_ret. by rewrite IH.
Qed.

Lemma diagnosticLines_length (ds : list Diagnostic.t) :
  List.length (diagnosticLines ds)
  = List.length
      (List.filter (λ dg, bool_decide (is_Some (Diagnostic.file dg))) ds).
Proof.
  induction ds as [|dg ds IH]; [done|].
  rewrite diagnosticLines_cons. cbn [List.filter].
  destruct (Diagnostic.file dg) as [sf|].
  - rewrite bool_decide_eq_true_2 by (by eexists). simpl. by rewrite IH.
  - rewrite bool_decide_eq_false_2 by (by intros [? ?]). done.
Qed.

(** The requests and the console lines of one [emitFile]. *)
Lemma emitFile_explicit this path w :
  let host := languageServiceHost this in
  let output := getEmitOutput host path in
  let ok := bool_decide (ts.emitOutputStatus output = Succeeded) in
  let names := map OutputFile.name (ts.outputFiles output) in
  let allDiagnostics :=
    (getCompilerOptionsDiagnostics host ++ getSyntacticDiagnostics host path)
    ++ getSemanticDiagnostics host path in
  emitFile this path w
  = match forEach
            (λ o, writeFileSync (OutputFile.name o) (OutputFile.text o))
            (ts.outputFiles output)
            (mkWorld (disk w)
               (console w
                ++ (if ok then []
                    else LogText ("FAILURE " +:+ path +:+ " emit")
                         :: LogDiagnostics allDiagnostics
                         :: diagnosticLines allDiagnostics))
               (requests w
                ++ ReqEmitOutput path
                   :: (if ok then []
                       else [ReqCompilerOptionsDiagnostics;
                             ReqSyntacticDiagnostics path;
                             ReqSemanticDiagnostics path]))
               (programs w) (instances w)) with
    | Ok _ w' =>
        Ok (mkEmitOutput
              (if String.eqb (extname path) ".d.ts"
               then names ++ [path] else names) ok) w'
    | Throw e w' => Throw e w'
    end.
Proof.
  intros host output ok names allDiagnostics. subst ok. unfold emitFile.
  fold host output.
  unfold mbind, M_bind, request, consoleLog, modify. simpl.
  destruct (bool_decide (ts.emitOutputStatus output = Succeeded)).
  - rewrite app_nil_r. simpl.
    by destruct (forEach _ _ _) as [[] ?|].
  - simpl. fold allDiagnostics. rewrite forEach_logDiagnostic_lines. simpl.
    rewrite <- !app_assoc. simpl.
    by destruct (forEach _ _ _) as [[] ?|].
Qed.

(** X10. A successful emit whose outputs can all be written prints
    nothing and asks the language service for the output only: the world
    afterwards is the old one with the outputs on disk and that one
    request, and the result lists the names of the outputs (and the path
    itself when its extension is ['.d.ts']). *)
Theorem emitFile_succeeded this path w :
  let output := getEmitOutput (languageServiceHost this) path in
  let names := map OutputFile.name (ts.outputFiles output) in
  ts.emitOutputStatus output = Succeeded →
  writable (disk w) (ts.outputFiles output) = true →
  emitFile this path w
  = Ok (mkEmitOutput
          (if String.eqb (extname path) ".d.ts" then names ++ [path]
           else names) true)
      (mkWorld (writeOutputs (ts.outputFiles output) (disk w)) (console w)
         (requests w ++ [ReqEmitOutput path]) (programs w) (instances w)).
Proof.
  intros output names Hok Hw. rewrite emitFile_explicit. fold output names.
  rewrite bool_decide_eq_true_2 by done. rewrite app_nil_r.
  by rewrite forEach_write_ok by done.
Qed.

(** X11. A failed emit whose outputs can all be written still returns, with
    the flag [false].  It asks for the compiler-options, syntactic and
    semantic diagnostics, in this order, and prints the failure line, the
    list of all diagnostics, and one line for each diagnostic that has a
    source file; a diagnostic without a file is passed over. *)
Theorem emitFile_failed_logs this path w :
  let host := languageServiceHost this in
  let output := getEmitOutput host path in
  let allDiagnostics :=
    (getCompilerOptionsDiagnostics host ++ getSyntacticDiagnostics host path)
    ++ getSemanticDiagnostics host path in
  ts.emitOutputStatus output ≠ Succeeded →
  writable (disk w) (ts.outputFiles output) = true →
  ∃ out w',
    emitFile this path w = Ok out w'
    ∧ success out = false
    ∧ requests w'
      = requests w ++ [ReqEmitOutput path; ReqCompilerOptionsDiagnostics;
                       ReqSyntacticDiagnostics path;
                       ReqSemanticDiagnostics path]
    ∧ console w'
      = console w ++ LogText ("FAILURE " +:+ path +:+ " emit")
                     :: LogDiagnostics allDiagnostics
                     :: diagnosticLines allDiagnostics
    ∧ List.length (diagnosticLines allDiagnostics)
      = List.length
          (List.filter (λ dg, bool_decide (is_Some (Diagnostic.file dg)))
             allDiagnostics).
Proof.
  intros host output allDiagnostics Hfail Hw. rewrite emitFile_explicit.
  fold host output allDiagnostics.
  rewrite bool_decide_eq_false_2 by done.
  rewrite forEach_write_ok by done.
  eexists _, _. split_and!; [reflexivity|done|done|done|].
  apply diagnosticLines_length.
Qed.

Lemma forEach_write_requests (outs : list OutputFile.t) w :
  requests
    (stateOf (forEach (λ o, writeFileSync (OutputFile.name o) (OutputFile.text o))
                outs w))
  = requests w.
Proof.
  revert w. induction outs as [|o outs IH]; intros w; simpl; [done|].
  unfold mbind, M_bind, writeFileSync.
  destruct (canWrite (disk w) (OutputFile.name o)); [|done].
  by rewrite IH.
Qed.

Lemma emitRequests_app (rs1 rs2 : list Request) :
  emitRequests (rs1 ++ rs2) = emitRequests rs1 ++ emitRequests rs2.
Proof. unfold emitRequests. apply omap_app. Qed.

Lemma emitFile_emitRequests this path w :
  emitRequests (requests (stateOf (emitFile this path w)))
  = emitRequests (requests w) ++ [path].
Proof.
  rewrite emitFile_explicit.
  match goal with |- context [forEach ?f ?outs ?w0] =>
    pose proof (forEach_write_requests outs w0) as Hreq;
    destruct (forEach f outs w0) as [[] w'|e w']
  end; simpl in *; rewrite Hreq, emitRequests_app;
    by destruct (bool_decide _).
Qed.

Lemma init_emitRequests this w w' :
  init this w = Ok tt w' →
  emitRequests (requests w')
  = emitRequests (requests w) ++ files (project (projectFile this)).
Proof.
  unfold init. revert w.
  induction (files (project (projectFile this))) as [|f l IH]; intros w Hrun.
  { injection Hrun as <-. by rewrite app_nil_r. }
  cbn [forEach] in Hrun. unfold mbind, M_bind in Hrun.
  pose proof (emitFile_emitRequests this f w) as Hf.
  destruct (emitFile this f w) as [out w1|e w1]; [|done]. simpl in *.
  rewrite (IH _ Hrun), Hf, <- app_assoc. done.
Qed.

(** X12. A construction that returns has requested the emit output of
    every file of the program's final file list, each once, in the order
    of the list. *)
Theorem newProgram_emits_each_file (details : TypeScriptProjectFileDetails)
    w program w' :
  newProgram details w = Ok program w' →
  emitRequests (requests w')
  = emitRequests (requests w) ++ files (project (projectFile program)).
Proof.
  unfold newProgram.
  destruct (increaseProjectForReferenceAndImports _ _) as [[] this|e this];
    [|done].
  unfold mbind, M_bind.
  match goal with |- context [init this ?w0] =>
    destruct (init this w0) as [[] w1|e w1] eqn:Hinit
  end; [|done].
  intros [= <- <-]. by rewrite (init_emitRequests _ _ _ Hinit).
Qed.

(** X13. A call to [getOrCreateProgram] that throws, whether the project
    could not be resolved, a referenced file could not be read or an output
    could not be written, caches nothing: the cache is as it was. *)
Theorem getOrCreateProgram_throw_keeps_cache path w e w' :
  getOrCreateProgram path w = Throw e w' →
  programs w' = programs w.
Proof.
  unfold getOrCreateProgram, mbind, M_bind, gets.
  pose proof (getOrCreateProject_sameCache path w) as Hc.
  destruct (getOrCreateProject path w) as [details wd|e0 wd]; simpl in Hc.
  2: { intros [= <- <-]. by destruct Hc. }
  destruct Hc as [Hp _].
  destruct (programs wd !! projectFileDirectory details); [done|].
  destruct (newProgram_spec details wd) as (Hnew & _ & _).
  destruct (newProgram details wd) as [p w1|e1 w1]; [done|].
  intros [= <- <-]. simpl in Hnew. congruence.
Qed.

(** X19. The program a construction returns has the identity that was
    next, the directory of its project, the files of the project at the
    front of its file list, and a script in its host for every file of
    the list and for every path the text of such a file refers to. *)
Theorem newProgram_program (details : TypeScriptProjectFileDetails)
    w program w' :
  newProgram details w = Ok program w' →
  instanceId program = instances w
  ∧ projectFileDirectory (projectFile program) = projectFileDirectory details
  ∧ files (project details) `prefix_of` files (project (projectFile program))
  ∧ (∀ f, f ∈ files (project (projectFile program)) →
          hasScript (languageServiceHost program) f = true)
  ∧ ∀ f content g,
      f ∈ files (project (projectFile program)) →
      getScriptContent (languageServiceHost program) f = Some content →
      g ∈ referencedBy content f →
      hasScript (languageServiceHost program) g = true.
Proof.
  unfold newProgram.
  destruct (increaseProjectForReferenceAndImports _ _) as [[] this|e this]
    eqn:Hinc; [|done].
  unfold mbind, M_bind.
  match goal with |- context [init this ?w0] =>
    destruct (init this w0) as [[] w1|e w1]
  end; [|done].
  intros [= <- <-].
  destruct (increaseProject_identity _ _ _ Hinc) as [Hdir Hid].
  pose proof (increaseProject_loop _ _ _ Hinc) as Hloop.
  destruct (expansionLoop_grows _ _ _ _ Hloop) as (Hpre & _).
  apply expansionLoop_exit in Hloop.
  destruct (scan_nil _ _ _ Hloop) as (_ & Hhosted & Hall).
  split_and!; [done|done|done| |].
  - intros f Hf. by apply hasScript_true, Hhosted.
  - intros f content g Hf Hc Hg. by apply hasScript_true, (Hall f content).
Qed.

End ManagerProperties.

(** ** Diagnostics *)

Section DiagnosticsProperties.

Context {N : Node} {U : Utils} {T : TypeScript} {L : HostModule}
  {C : TsConfig}.

Implicit Types (w : World) (this program : Program) (path : string).

Lemma mapM_toTSError_fileless program path (ds : list Diagnostic.t) w :
  is_Some (getScriptContent (languageServiceHost program) path) →
  Exists (λ dg, Diagnostic.file dg = None) ds →
  mapM (toTSError program path) ds w = Throw (TypeError "diagnostic.file") w.
Proof.
  intros [content Hcontent] Hex.
  induction ds as [|dg ds IH]; [by apply Exists_nil in Hex|].
  rewrite mapM_cons. unfold toTSError at 1.
  destruct (Diagnostic.file dg) as [sf|] eqn:Hfile; [|done].
  rewrite Hcontent. simpl.
  apply Exists_cons in Hex as [Hhead|Htail]; [congruence|].
  by rewrite IH.
Qed.

(** X14. [getErrorsForFile] throws a [TypeError] as soon as one of the
    diagnostics it reports has no source file, where [emitFile] passes such
    a diagnostic over: no error list is returned for the file. *)
Theorem getErrorsForFile_fileless path w program w1 :
  getOrCreateProgram path w = Ok program w1 →
  let host := languageServiceHost program in
  is_Some (getScriptContent host path) →
  Exists (λ dg, Diagnostic.file dg = None) (tieredDiagnostics host path) →
  ∃ w', getErrorsForFile path w = Throw (TypeError "diagnostic.file") w'
        ∧ disk w' = disk w1 ∧ programs w' = programs w1.
Proof.
  intros Hprog host Hcontent Hex.
  rewrite getErrorsForFile_unfold, Hprog. fold host. simpl.
  rewrite mapM_toTSError_fileless by done.
  eexists. split; [reflexivity|done].
Qed.

(** X15. When the queried file has no script in the host of its program,
    [getErrorsForFile] returns the empty list if there is no diagnostic to
    report, and throws a [TypeError] if there is one. *)
Theorem getErrorsForFile_missing_script path w program w1 :
  getOrCreateProgram path w = Ok program w1 →
  let host := languageServiceHost program in
  getScriptContent host path = None →
  (tieredDiagnostics host path = [] →
   ∃ w', getErrorsForFile path w = Ok [] w')
  ∧ (tieredDiagnostics host path ≠ [] →
     ∃ what w', getErrorsForFile path w = Throw (TypeError what) w').
Proof.
  intros Hprog host Hcontent.
  rewrite getErrorsForFile_unfold, Hprog. fold host. simpl.
  destruct (tieredDiagnostics host path) as [|dg ds].
  - split; [intros _; by eexists|done].
  - split; [done|intros _]. rewrite mapM_cons. unfold toTSError at 1.
    fold host. rewrite Hcontent.
    destruct (Diagnostic.file dg); by eexists _, _.
Qed.

(** X16. For a file whose project is found and whose program is cached,
    [getErrorsForFile] changes nothing but the trace of requests: the disk,
    the console and the cache are as before, and no program is built. *)
Theorem getErrorsForFile_cached path w
    (details : TypeScriptProjectFileDetails) program :
  getProjectSync (disk w) path = Some details →
  programs w !! projectFileDirectory details = Some program →
  let host := languageServiceHost program in
  stateOf (getErrorsForFile path w)
  = withRequests
      (match getSyntacticDiagnostics host path with
       | [] => [ReqSyntacticDiagnostics path; ReqSemanticDiagnostics path]
       | _ => [ReqSyntacticDiagnostics path]
       end) w.
Proof.
  intros Hproj Hp host.
  assert (getOrCreateProgram path w = Ok program w) as Hprog.
  { apply (getOrCreateProgram_hit _ _ details); [|done].
    unfold getOrCreateProject. by rewrite Hproj. }
  rewrite getErrorsForFile_unfold, Hprog. fold host. simpl.
  match goal with |- context [mapM _ ?l ?w0] =>
    by destruct (mapM_toTSError program path l w0) as [-> _]
  end.
Qed.

Lemma filter_sublist {A} (p : A → bool) (l : list A) :
  List.filter p l `sublist_of` l.
Proof.
  induction l as [|x l IH]; simpl; [done|].
  destruct (p x); [by apply sublist_skip|by apply sublist_cons].
Qed.

(** X17. [getErrorsForFileFiltered] returns the errors of
    [getErrorsForFile] in their order, less those whose file has another
    base name; an error attributed to the queried path itself is always
    kept.  When [getErrorsForFile] throws, so does the filtered call, with
    the same exception. *)
Theorem getErrorsForFileFiltered_keeps_own path w :
  (∀ errs w',
     getErrorsForFile path w = Ok errs w' →
     ∃ kept,
       getErrorsForFileFiltered path w = Ok kept w'
       ∧ kept `sublist_of` errs
       ∧ (∀ e, e ∈ kept
               ↔ e ∈ errs ∧ basename (filePath e) = basename path)
       ∧ (∀ e, e ∈ errs → filePath e = path → e ∈ kept))
  ∧ (∀ e w',
       getErrorsForFile path w = Throw e w' →
       getErrorsForFileFiltered path w = Throw e w').
Proof.
  rewrite getErrorsForFileFiltered_unfold.
  split; [intros errs w' ->|by intros e w' ->].
  assert (∀ e,
            e ∈ List.filter
                  (λ e, String.eqb (basename (filePath e)) (basename path)) errs
            ↔ e ∈ errs ∧ basename (filePath e) = basename path) as Hin.
  { intros e. rewrite !list_elem_of_In, filter_In, String.eqb_eq. done. }
  eexists. split_and!; [reflexivity|apply filter_sublist|exact Hin|].
  intros e He Hpath. apply Hin. by rewrite Hpath.
Qed.

Lemma len_substr (s : string) (first n : Z) :
  JsString.len (JsString.substr s first n) ≤ Z.max n 0
  ∧ JsString.len (JsString.substr s first n) ≤ JsString.len s.
Proof.
  unfold JsString.substr, JsString.len, JsString.clampIndex.
  rewrite substring_length. destruct (Z.ltb_spec first 0); lia.
Qed.

(** X18. The preview of every error [getErrorsForFile] returns is no
    longer than the length of its diagnostic (none when that length is
    negative) and no longer than the script of the queried file. *)
Theorem getErrorsForFile_preview_bound path w errs w' :
  getErrorsForFile path w = Ok errs w' →
  ∃ program w1,
    getOrCreateProgram path w = Ok program w1
    ∧ Forall2
        (λ dg e,
           JsString.len (preview e) ≤ Z.max (Diagnostic.length dg) 0
           ∧ ∃ content,
               getScriptContent (languageServiceHost program) path
               = Some content
               ∧ JsString.len (preview e) ≤ JsString.len content)
        (tieredDiagnostics (languageServiceHost program) path) errs.
Proof.
  rewrite getErrorsForFile_unfold.
  destruct (getOrCreateProgram path w) as [program w1|e w1]; [|done].
  simpl. intros Hrun. exists program, w1. split; [done|].
  apply mapM_toTSError in Hrun.
  eapply Forall2_impl; [exact Hrun|].
  intros dg e (sf & content & _ & Hcontent & _ & _ & _ & _ & ->).
  destruct (len_substr content (Diagnostic.start dg) (Diagnostic.length dg)).
  split; [done|]. by exists content.
Qed.

End DiagnosticsProperties.

(** ** The further properties on concrete inputs *)

Section MoreExamples.

Import Demo Demo2.

Lemma formatCode_length_two_edits :
  let changes := [mkTextChange (mkTextSpan 1 1) "XY";
                  mkTextChange (mkTextSpan 3 2) ""] in
  orderedFrom 0 (JsString.len "abcdef") changes = true
  ∧ JsString.len (formatCode "abcdef" changes)
    = JsString.len "abcdef" + lengthDelta changes.
Proof.
  intros changes. split; [reflexivity|].
  apply formatCode_length. reflexivity.
Defined.

Lemma formatCode_keepsText_bc :
  let changes := [mkTextChange (mkTextSpan 1 2) "bc"] in
  Forall (keepsText "abcdef") changes
  ∧ formatCode "abcdef" changes = "abcdef".
Proof.
  intros changes.
  assert (Forall (keepsText "abcdef") changes) as Hkeep
    by (constructor; [reflexivity|constructor]).
  split; [exact Hkeep|].
  apply formatCode_keepsText; [reflexivity|exact Hkeep].
Defined.

Lemma formatCode_edit_past_end_abc :
  formatCode "abc" [mkTextChange (mkTextSpan 9 3) "!"] = "abc" +:+ "!".
Proof.
  apply formatCode_edit_past_end; vm_compute; intros Hgt; discriminate Hgt.
Defined.

Lemma formatDocument_formats_single :
  ∃ w',
    formatDocument singleProgram "/p/c.ts" (emptyWorld singleDisk)
    = Ok (Some "var x;") w'
    ∧ disk w' = singleDisk.
Proof.
  destruct (proj1 (formatDocument_formats singleProgram "/p/c.ts" 0 0
                     (emptyWorld singleDisk) "var x" eq_refl))
    as [entry Hrun]; [vm_compute; reflexivity|].
  eexists. split; [exact Hrun|reflexivity].
Defined.

Lemma formatDocument_missing_script_throws :
  ∃ what,
    formatDocument singleProgram "/p/ghost.ts" (emptyWorld singleDisk)
    = Throw (TypeError what) (emptyWorld singleDisk).
Proof.
  apply (proj2 (formatDocument_missing_script singleProgram "/p/ghost.ts"
                  (emptyWorld singleDisk) eq_refl)).
  intros Hnil; discriminate Hnil.
Defined.

Lemma increaseProject_grows_cyclic :
  ∃ this',
    increaseProjectForReferenceAndImports (T := quiet) cyclicDisk cyclicProgram
    = Ok tt this'
    ∧ files (project (projectFile cyclicProgram))
      `prefix_of` files (project (projectFile this')).
Proof.
  eexists. split; [vm_compute; reflexivity|].
  apply (increaseProject_grows (T := quiet) cyclicDisk cyclicProgram).
  vm_compute. reflexivity.
Defined.

Lemma increaseProject_closed_cyclic :
  ∃ this',
    increaseProjectForReferenceAndImports (T := quiet) cyclicDisk cyclicProgram
    = Ok tt this'
    ∧ hasScript (languageServiceHost this') "/p/b.ts" = true.
Proof.
  eexists. split; [vm_compute; reflexivity|].
  eapply (proj2 (increaseProject_closed (T := quiet) cyclicDisk cyclicProgram
                   _ _)
            "/p/a.ts" "ref b.ts;import ./c;import fs" "/p/b.ts").
  Unshelve.
  all: vm_compute; first [reflexivity | constructor].
Defined.

Lemma danglingProgram_hosted f :
  f ∈ files (project (projectFile danglingProgram)) →
  hasScript (languageServiceHost danglingProgram) f = true.
Proof. intros ->%list_elem_of_singleton. vm_compute. reflexivity. Qed.

Lemma increaseProject_failure_dangling :
  let ghost :=
    mkProgram 0 (mkDetails "/p" (mkProject ["/p/ghost.ts"])) (mkHost ∅) in
  (∃ f this',
     increaseProjectForReferenceAndImports (T := quiet) danglingDisk
       danglingProgram
     = Throw (IOError f) this')
  ∧ increaseProjectForReferenceAndImports (T := quiet) singleDisk ghost
    = Throw (TypeError "preProcessFile") ghost.
Proof.
  intros ghost. split.
  - apply (proj2 (proj2 (increaseProject_failure (T := quiet) danglingDisk
                           danglingProgram))
             danglingProgram_hosted "/p/a.ts" "ref missing.ts"
             "/p/missing.ts").
    + vm_compute. constructor.
    + vm_compute. reflexivity.
    + vm_compute. constructor.
    + vm_compute. reflexivity.
    + vm_compute. reflexivity.
  - apply (proj1 (proj2 (increaseProject_failure (T := quiet) singleDisk
                           ghost)) "/p/ghost.ts").
    + vm_compute. constructor.
    + vm_compute. reflexivity.
Defined.

Lemma emitFile_succeeded_a :
  emitFile (T := quiet) cyclicProgram "/p/a.ts" (emptyWorld cyclicDisk)
  = Ok (mkEmitOutput ["/p/a.ts.js"] true)
      (mkWorld (<["/p/a.ts.js" := "js"]> cyclicDisk) []
         [ReqEmitOutput "/p/a.ts"] ∅ 0).
Proof.
  rewrite (emitFile_succeeded (T := quiet) cyclicProgram "/p/a.ts"
             (emptyWorld cyclicDisk) eq_refl)
    by (vm_compute; reflexivity).
  reflexivity.
Defined.

Lemma emitFile_failed_logs_stub :
  ∃ out w',
    emitFile (T := stubEngine) singleProgram "/p/c.ts" (emptyWorld singleDisk)
    = Ok out w'
    ∧ success out = false
    ∧ List.length (console w') = 3%nat.
Proof.
  destruct (emitFile_failed_logs (T := stubEngine) singleProgram "/p/c.ts"
              (emptyWorld singleDisk))
    as (out & w' & Hrun & Hfail & _ & Hconsole & _).
  - intros Hs; discriminate Hs.
  - vm_compute. reflexivity.
  - exists out, w'. split; [exact Hrun|]. split; [exact Hfail|].
    rewrite Hconsole. reflexivity.
Defined.

Lemma newProgram_emits_each_file_cyclic :
  ∃ program w',
    newProgram (T := quiet) (mkDetails "/p" (mkProject ["/p/a.ts"]))
      (emptyWorld cyclicDisk) = Ok program w'
    ∧ emitRequests (requests w') = ["/p/a.ts"; "/p/b.ts"; "/p/c.ts"].
Proof.
  eexists _, _. split; [vm_compute; reflexivity|].
  etrans;
    [apply (newProgram_emits_each_file (T := quiet)
              (mkDetails "/p" (mkProject ["/p/a.ts"])) (emptyWorld cyclicDisk));
     vm_compute; reflexivity|].
  reflexivity.
Defined.

Lemma newProgram_program_cyclic :
  ∃ program w',
    newProgram (T := quiet) (mkDetails "/p" (mkProject ["/p/a.ts"]))
      (emptyWorld cyclicDisk) = Ok program w'
    ∧ instanceId program = 0%nat
    ∧ projectFileDirectory (projectFile program) = "/p".
Proof.
  eexists _, _. split; [vm_compute; reflexivity|].
  edestruct (newProgram_program (T := quiet)
               (mkDetails "/p" (mkProject ["/p/a.ts"]))
               (emptyWorld cyclicDisk)) as (Hid & Hdir & _);
    [vm_compute; reflexivity|].
  exact (conj Hid Hdir).
Defined.

Lemma getOrCreateProgram_throw_dangling :
  ∃ e w',
    getOrCreateProgram (T := quiet) "/p/a.ts" (emptyWorld danglingDisk)
    = Throw e w'
    ∧ programs w' = ∅.
Proof.
  eexists _, _. split; [vm_compute; reflexivity|].
  apply (getOrCreateProgram_throw_keeps_cache (T := quiet) "/p/a.ts"
           (emptyWorld danglingDisk) (IOError "/p/missing.ts")).
  vm_compute. reflexivity.
Defined.

Lemma getErrorsForFile_fileless_stub :
  ∃ w',
    getErrorsForFile (T := stubEngine) "/p/c.ts" (emptyWorld singleDisk)
    = Throw (TypeError "diagnostic.file") w'.
Proof.
  edestruct (getErrorsForFile_fileless (T := stubEngine) "/p/c.ts"
               (emptyWorld singleDisk)) as (w' & Hrun & _).
  - vm_compute. reflexivity.
  - vm_compute. eexists. reflexivity.
  - apply Exists_cons_hd. reflexivity.
  - exists w'. exact Hrun.
Defined.

Lemma getErrorsForFile_missing_script_ghost :
  let w1 :=
    stateOf (getOrCreateProgram (T := noisy) "/p/c.ts"
               (emptyWorld singleDisk)) in
  ∃ what w',
    getErrorsForFile (T := noisy) "/p/ghost.ts" w1
    = Throw (TypeError what) w'.
Proof.
  intros w1.
  edestruct (getErrorsForFile_missing_script (T := noisy) "/p/ghost.ts" w1)
    as [_ Hthrow].
  - vm_compute. reflexivity.
  - vm_compute. reflexivity.
  - apply Hthrow. intros Hnil; discriminate Hnil.
Defined.

Lemma getErrorsForFile_cached_a :
  let w1 :=
    stateOf (getOrCreateProgram (T := noisy) "/p/a.ts"
               (emptyWorld cyclicDisk)) in
  stateOf (getErrorsForFile (T := noisy) "/p/a.ts" w1)
  = withRequests [ReqSyntacticDiagnostics "/p/a.ts"] w1.
Proof.
  intros w1.
  assert (∃ program, programs w1 !! "/p" = Some program) as [program Hp]
    by (vm_compute; eexists; reflexivity).
  exact (getErrorsForFile_cached (T := noisy) "/p/a.ts" w1
           (mkDetails "/p" (mkProject ["/p/a.ts"])) program eq_refl Hp).
Defined.

Lemma getErrorsForFile_preview_bound_main :
  let A := "/p/main.ts" in
  let B := "/p/util.ts" in
  ∃ e w',
    getErrorsForFile (T := importerEngine A B) A
      (emptyWorld (importerDisk A B "./util")) = Ok [e] w'
    ∧ JsString.len (preview e) ≤ 4.
Proof.
  intros A B.
  assert (∃ e w', getErrorsForFile (T := importerEngine A B) A
                    (emptyWorld (importerDisk A B "./util")) = Ok [e] w')
    as (e & w' & Hrun) by (eexists _, _; vm_compute; reflexivity).
  exists e, w'. split; [exact Hrun|].
  destruct (getErrorsForFile_preview_bound (T := importerEngine A B) A _ _ _
              Hrun) as (program & w1 & _ & Hall).
  change (tieredDiagnostics _ _) with [errorIn B "';' expected."] in Hall.
  apply Forall2_cons_1 in Hall as [[Hbound _] _]. exact Hbound.
Defined.

End MoreExamples.
